(** * Guest/contact name matching: the scoring core of [logic.py]

    A shallow embedding of the name-matching engine (normalizer, tokenizer,
    token matcher, scorer, candidate selector, best-score aggregator) and
    the properties its specification states about it.

    Python values are modelled as follows.
    - [str] is a list of Unicode code points.
    - [float] is a binary64 number (the kernel's primitive floats), so the
      arithmetic of the scorer is evaluated bit for bit.
    - an exception is a [Raise] in the result type [res].
    - the third-party functions ([str.lower], [unidecode], [rapidfuzz]) are
      operations of two interfaces, [Unicode] and [RapidFuzz]; what a
      property needs from them is stated as a hypothesis, and a concrete
      model of each is given to evaluate examples. *)

From Stdlib Require Import Ascii String.
From Stdlib Require Import ZArith NArith List Bool Lia.
From Stdlib Require Import Sorting.Sorted Sorting.Permutation.
From Stdlib Require Import Floats Uint63.
Import ListNotations.

Set Warnings "-inexact-float".
Local Open Scope Z_scope.

(** ** Python strings *)

Definition codepoint := N.
Definition str := list codepoint.

(** An ASCII literal as a Python string. *)
Fixpoint py (s : string) : str :=
  match s with
  | EmptyString => []
  | String a s' => N_of_ascii a :: py s'
  end.

Fixpoint str_eqb (a b : str) : bool :=
  match a, b with
  | [], [] => true
  | x :: a', y :: b' => N.eqb x y && str_eqb a' b'
  | _, _ => false
  end.

(** [a <= b] in Python: code points compared lexicographically. *)
Fixpoint str_leb (a b : str) : bool :=
  match a, b with
  | [], _ => true
  | _ :: _, [] => false
  | x :: a', y :: b' =>
      if N.ltb x y then true
      else if N.eqb x y then str_leb a' b' else false
  end.

Fixpoint strs_eqb (a b : list str) : bool :=
  match a, b with
  | [], [] => true
  | x :: a', y :: b' => str_eqb x y && strs_eqb a' b'
  | _, _ => false
  end.

(** [x in s] for a set or list of strings. *)
Definition mem (x : str) (s : list str) : bool := existsb (str_eqb x) s.

(** [len(set(l))]: the number of distinct elements; [dedup] keeps the first
    occurrence of each. *)
Fixpoint dedup (l : list str) : list str :=
  match l with
  | [] => []
  | x :: l' => x :: filter (fun y => negb (str_eqb x y)) (dedup l')
  end.

(** [sep.join(l)] *)
Fixpoint join (sep : str) (l : list str) : str :=
  match l with
  | [] => []
  | [x] => x
  | x :: l' => x ++ sep ++ join sep l'
  end.

Definition SPACE : codepoint := 32%N.

(** [str.isspace] on one code point; the same set is the regex class [\s]
    and what [str.strip()] removes. *)
Definition isspace (c : codepoint) : bool :=
  ((9 <=? c) && (c <=? 13) || (28 <=? c) && (c <=? 32)
   || (c =? 133) || (c =? 160) || (c =? 5760)
   || (8192 <=? c) && (c <=? 8202)
   || (c =? 8232) || (c =? 8233) || (c =? 8239) || (c =? 8287)
   || (c =? 12288))%N.

Definition starts_with (p : codepoint -> bool) (s : str) : bool :=
  match s with
  | c :: _ => p c
  | [] => false
  end.

(** [re.compile("[...]+").sub(" ", s)]: every maximal run of characters of
    the class [p] becomes one space. *)
Fixpoint sub_runs (p : codepoint -> bool) (s : str) : str :=
  match s with
  | [] => []
  | c :: s' =>
      if p c then
        if starts_with p s' then sub_runs p s' else SPACE :: sub_runs p s'
      else c :: sub_runs p s'
  end.

(** [re.compile(r"\s+").split(s)]: the pieces between maximal whitespace
    runs, the empty pieces at both ends included. *)
Fixpoint re_split_ws (s : str) : list str :=
  match s with
  | [] => [[]]
  | c :: s' =>
      if isspace c then
        if starts_with isspace s' then re_split_ws s' else [] :: re_split_ws s'
      else
        match re_split_ws s' with
        | piece :: rest => (c :: piece) :: rest
        | [] => [[c]]
        end
  end.

Fixpoint lstrip (s : str) : str :=
  match s with
  | [] => []
  | c :: s' => if isspace c then lstrip s' else s
  end.

Fixpoint rstrip (s : str) : str :=
  match s with
  | [] => []
  | c :: s' =>
      match rstrip s' with
      | [] => if isspace c then [] else [c]
      | r => c :: r
      end
  end.

(** [s.strip()] *)
Definition strip (s : str) : str := rstrip (lstrip s).

Definition is_ascii (c : codepoint) : Prop := (c < 128)%N.

Definition ascii_lower (c : codepoint) : codepoint :=
  if ((65 <=? c) && (c <=? 90))%N then (c + 32)%N else c.

(** A character [str.lower()] leaves alone (on ASCII text). *)
Definition lowered (c : codepoint) : Prop := ascii_lower c = c.

(** Every whitespace character is one space, and is not followed by
    whitespace. *)
Fixpoint single_spaced (s : str) : Prop :=
  match s with
  | [] => True
  | c :: s' =>
      (isspace c = true -> c = SPACE /\ starts_with isspace s' = false)
      /\ single_spaced s'
  end.

(** ** Python numbers and exceptions *)

Inductive exn : Type := ValueError | OverflowError.

Inductive res (A : Type) : Type :=
| Ok (a : A)
| Raise (e : exn).
Arguments Ok {A} a.
Arguments Raise {A} e.

Definition bind {A B : Type} (m : res A) (k : A -> res B) : res B :=
  match m with
  | Ok a => k a
  | Raise e => Raise e
  end.

Notation "x <- m ;; k" := (bind m (fun x => k))
  (at level 61, m at next level, right associativity).

(** [Series.apply(f)] with a function that may raise: the first exception
    aborts the whole call. *)
Fixpoint mapM {A B : Type} (f : A -> res B) (l : list A) : res (list B) :=
  match l with
  | [] => Ok []
  | a :: l' => b <- f a ;; bs <- mapM f l' ;; Ok (b :: bs)
  end.

(** A Python number: [int] is unbounded, [float] is binary64. *)
Inductive pynum : Type :=
| PyInt (z : Z)
| PyFloat (f : float).

Definition float_of_Z (z : Z) : float :=
  if z <? 0 then (- PrimFloat.of_uint63 (Uint63.of_Z (- z)))%float
  else PrimFloat.of_uint63 (Uint63.of_Z z).

Definition float_of_nat (n : nat) : float := float_of_Z (Z.of_nat n).

(** The value of a number once it sits in a float64 column (exact for the
    integers below 2^53). *)
Definition to_float (x : pynum) : float :=
  match x with
  | PyInt z => float_of_Z z
  | PyFloat f => f
  end.

(** The integer nearest to [m * 2^e], ties to the even one. *)
Definition half_even (m e : Z) : Z :=
  if 0 <=? e then m * 2 ^ e
  else
    let d := 2 ^ (- e) in
    let q := m / d in
    match 2 * (m mod d) ?= d with
    | Lt => q
    | Gt => q + 1
    | Eq => if Z.even q then q else q + 1
    end.

Definition signed (s : bool) (z : Z) : Z := if s then - z else z.

(** [round(x)] of a float: round-half-even to an [int]; [nan] and the
    infinities raise. *)
Definition py_round (f : float) : res Z :=
  match Prim2SF f with
  | S754_zero _ => Ok 0
  | S754_finite s m e => Ok (signed s (half_even (Zpos m) e))
  | S754_infinity _ => Raise OverflowError
  | S754_nan => Raise ValueError
  end.

(** [int(x)] of a float: truncation toward zero; [nan] and the infinities
    raise. *)
Definition float_trunc (f : float) : res Z :=
  match Prim2SF f with
  | S754_zero _ => Ok 0
  | S754_finite s m e =>
      Ok (signed s (if 0 <=? e then Zpos m * 2 ^ e else Zpos m / 2 ^ (- e)))
  | S754_infinity _ => Raise OverflowError
  | S754_nan => Raise ValueError
  end.

Definition py_int (x : pynum) : res Z :=
  match x with
  | PyInt z => Ok z
  | PyFloat f => float_trunc f
  end.

(** ** pandas: the operations on the score column *)

(** [Series.max()]: [nan] entries are skipped, and the maximum of nothing
    (an empty column included) is [nan]. *)
Definition series_max (l : list float) : float :=
  fold_left
    (fun acc x =>
       if is_nan x then acc
       else if is_nan acc then x
       else if (acc <? x)%float then x else acc)
    l nan.

(** ** The Unicode services of the normalizer *)

(** [str.lower()] and the transliteration table of [unidecode] (the
    replacement of a code point >= 128; empty where the table has no entry)
    are data of the Unicode database and of the library, not of this
    repository. *)
Class Unicode : Type := {
  py_lower : str -> str;
  xtable : codepoint -> str
}.

(** On ASCII text [str.lower()] maps A-Z to a-z and nothing else. *)
Definition lower_on_ascii (U : Unicode) : Prop :=
  forall s, Forall is_ascii s -> py_lower s = map ascii_lower s.

(** Every replacement of the transliteration table is ASCII text. *)
Definition table_into_ascii (U : Unicode) : Prop :=
  forall c, Forall is_ascii (xtable c).

(** The class of [_punc_re]: pipe, backslash, slash, parentheses, square
    brackets, double and single quote, geresh (U+05F3), gershayim (U+05F4),
    period, comma, hyphen. *)
Definition punc (c : codepoint) : bool :=
  ((c =? 124) || (c =? 92) || (c =? 47) || (c =? 40) || (c =? 41)
   || (c =? 91) || (c =? 93) || (c =? 34) || (c =? 39)
   || (c =? 1523) || (c =? 1524) || (c =? 46) || (c =? 44) || (c =? 45))%N.

Section Normalizer.
Context {U : Unicode}.

(** [unidecode.unidecode(s)]: ASCII is kept, any other code point is
    replaced by its table entry. *)
Definition unidecode (s : str) : str :=
  flat_map (fun c => if (c <? 128)%N then [c] else xtable c) s.

Definition normalize (txt : option str) : str :=
  match txt with
  | None => []
  | Some [] => []
  | Some txt =>
      let t := py_lower txt in
      let t := sub_runs punc t in
      let t := strip (sub_runs isspace t) in
      unidecode t
  end.
End Normalizer.

(** A model of the two services on the code points the examples use:
    ASCII case folding, and the table entries of the library's own
    documented examples. *)
Definition xtable_excerpt (c : codepoint) : str :=
  if (c =? 21271)%N then py "Bei "        (* U+5317 *)
  else if (c =? 20144)%N then py "Jing "  (* U+4EB0 *)
  else if (c =? 382)%N then py "z"        (* U+017E *)
  else if (c =? 353)%N then py "s"        (* U+0161 *)
  else if (c =? 269)%N then py "c"        (* U+010D *)
  else [].

Definition unicode_excerpt : Unicode :=
  {| py_lower := map ascii_lower; xtable := xtable_excerpt |}.

(** ** Tokenizer *)

Definition GENERIC_TOKENS : list str :=
  [ [1513; 1500]; [1492]; [1489; 1503]; [1489; 1514];
    [1502; 1513; 1508; 1495; 1514]; [1488; 1495; 1497];
    [1488; 1495; 1493; 1514]; [1491; 1493; 1491];
    [1491; 1493; 1491; 1492] ]%N.

Definition SUFFIX_TOKENS : list str :=
  [ [1502; 1497; 1500; 1493; 1488; 1497; 1501]%N;
    py "miluyim"; py "miloyim"; py "mil";
    [1504; 1497; 1497; 1491]%N; [1505; 1500; 1493; 1500; 1512]%N;
    [1505; 1500; 1493; 1500; 1512; 1497]%N; [1489; 1497; 1514]%N;
    [1506; 1489; 1493; 1491; 1492]%N; [1506; 1505; 1511; 1497]%N;
    [1488; 1497; 1513; 1497]%N; [1502; 1513; 1512; 1491]%N ].

Definition LETTER_V : codepoint := 118%N.
Definition LETTER_I : codepoint := 105%N.

(** [tok.endswith(c)] for a one-character suffix. *)
Definition ends_with (c : codepoint) (tok : str) : bool :=
  match rev tok with
  | x :: _ => N.eqb x c
  | [] => false
  end.

Definition _clean_token (tok : str) : str :=
  if mem tok SUFFIX_TOKENS then []
  else
    let tok :=
      if starts_with (N.eqb LETTER_V) tok && (2 <? length tok)%nat
      then tl tok else tok in
    let tok :=
      if (4 <=? length tok)%nat && ends_with LETTER_I tok
      then removelast tok else tok in
    tok.

Definition nonempty (s : str) : bool :=
  match s with [] => false | _ => true end.

Definition _tokens (name : str) : list str :=
  let tks := map _clean_token (re_split_ws name) in
  filter (fun t => nonempty t && negb (mem t GENERIC_TOKENS)) tks.

(** ** Token matcher and scorer *)

(** The functions of [rapidfuzz] the scorer calls:
    [distance.Levenshtein.normalized_similarity], [fuzz.ratio],
    [fuzz.token_set_ratio] and [fuzz.partial_ratio]. *)
Class RapidFuzz : Type := {
  normalized_similarity : str -> str -> float;
  ratio : str -> str -> float;
  token_set_ratio : str -> str -> float;
  partial_ratio : str -> str -> float
}.

Definition AUTO_SCORE : Z := 100.
Definition AUTO_SELECT_TH : Z := 93.
Definition MIN_SCORE_DISPLAY : Z := 70.

Section Scorer.
Context {F : RapidFuzz}.

Definition _fuzzy_eq (a b : str) : bool :=
  str_eqb a b || (0.9 <=? normalized_similarity a b)%float.

(** The inner [for c in cs] of [_fuzzy_jaccard]: the first [c] that is
    not in [used] and fuzzy-equal to [g], if any. *)
Fixpoint first_match (g : str) (cs used : list str) : option str :=
  match cs with
  | [] => None
  | c :: cs' =>
      if mem c used then first_match g cs' used
      else if _fuzzy_eq g c then Some c
      else first_match g cs' used
  end.

(** The outer [for g in gs], threading [matched] and [used]. *)
Fixpoint match_loop (gs cs : list str) (matched : nat) (used : list str)
  : nat * list str :=
  match gs with
  | [] => (matched, used)
  | g :: gs' =>
      match first_match g cs used with
      | Some c => match_loop gs' cs (S matched) (c :: used)
      | None => match_loop gs' cs matched used
      end
  end.

Definition _fuzzy_jaccard (gs cs : list str) : float :=
  let matched := fst (match_loop gs cs 0%nat []) in
  let union :=
    Z.of_nat (length (dedup gs)) + Z.of_nat (length (dedup cs))
    - Z.of_nat matched in
  if union =? 0 then 1%float
  else (float_of_nat matched / float_of_Z union)%float.

Definition full_score (g_norm c_norm : str) : res pynum :=
  if negb (nonempty g_norm) || negb (nonempty c_norm) then Ok (PyInt 0)
  else if str_eqb (strip g_norm) (strip c_norm) then Ok (PyInt AUTO_SCORE)
  else
    let g_t := _tokens g_norm in
    let c_t := _tokens c_norm in
    if strs_eqb g_t c_t then Ok (PyInt AUTO_SCORE)
    else
      match g_t, c_t with
      | [], _ | _, [] => Ok (PyFloat (partial_ratio g_norm c_norm))
      | g0 :: _, c0 :: _ =>
          let tr :=
            (token_set_ratio (join [SPACE] g_t) (join [SPACE] c_t) / 100)%float in
          let fr := (ratio g0 c0 / 100)%float in
          let jr := _fuzzy_jaccard g_t c_t in
          let lg := Z.of_nat (length g_t) in
          let lc := Z.of_nat (length c_t) in
          let gap := Z.abs (lg - lc) in
          let penalty :=
            if 2 <=? gap
            then (float_of_Z (Z.min lg lc) / float_of_Z (Z.max lg lc))%float
            else 1%float in
          let score :=
            ((0.6 * tr + 0.2 * fr + 0.2 * jr) * penalty * 100)%float in
          r <- py_round score ;; Ok (PyInt r)
      end.

(** The two fixed texts of [reason_for] ("overlap", "high match"). *)
Definition REASON_OVERLAP : str := [1495; 1508; 1497; 1508; 1492]%N.
Definition REASON_HIGH : str :=
  [1492; 1514; 1488; 1502; 1492; 32; 1490; 1489; 1493; 1492; 1492]%N.

Definition reason_for (g_norm c_norm : str) (score : Z) : str :=
  let overlap := filter (fun t => mem t (_tokens c_norm)) (_tokens g_norm) in
  match overlap with
  | _ :: _ => REASON_OVERLAP ++ py ": " ++ join (py ", ") (firstn 2 overlap)
  | [] => if AUTO_SELECT_TH <=? score then REASON_HIGH else []
  end.
End Scorer.

(** ** Candidate selector and best-score aggregator *)

(** A row of a loaded table: the name column, the phone column and the
    derived [norm_name] column. *)
Record row : Type := {
  full_name : str;
  phone : str;
  norm_name : str
}.

(** A row of [contacts_df.assign(score=scores)]. *)
Definition scored : Type := (row * pynum)%type.

Definition score_of (r : scored) : float := to_float (snd r).

(** A row of the result: the contact's columns, [score] and [reason]. *)
Record candidate : Type := {
  contact : row;
  score : pynum;
  reason : str
}.

(** The mask [df["score"] >= th]. *)
Definition score_ge (th : Z) (r : scored) : bool :=
  (float_of_Z th <=? score_of r)%float.

(** The order of [sort_values(["score", NAME_COL], ascending=[False, True])]:
    higher score first, then the smaller name. *)
Definition before (a b : scored) : bool :=
  (score_of b <? score_of a)%float
  || ((score_of a =? score_of b)%float
      && str_leb (full_name (fst a)) (full_name (fst b))).

Fixpoint insert (x : scored) (l : list scored) : list scored :=
  match l with
  | [] => [x]
  | y :: l' => if before x y then x :: l else y :: insert x l'
  end.

(** The sort is stable: rows equal on both keys keep their order. *)
Definition sort_values (l : list scored) : list scored :=
  fold_right insert [] l.

(** [df[df["score"] >= th].sort_values(...).head(3)] *)
Definition shortlist (th : Z) (df : list scored) : list scored :=
  firstn 3 (sort_values (filter (score_ge th) df)).

(** The three tiers of [top_matches]: with a perfect match only scores
    >= 90, otherwise scores >= 70, and scores >= 50 when that is empty. *)
Definition tiered (max_score : Z) (df : list scored) : list scored :=
  if max_score =? AUTO_SCORE then shortlist 90 df
  else
    match shortlist MIN_SCORE_DISPLAY df with
    | [] => shortlist 50 df
    | candidates => candidates
    end.

(** The [score] and contact columns of a result row. *)
Definition unreason (r : candidate) : scored := (contact r, score r).

(** A float that is neither [nan] nor an infinity. *)
Definition finite (f : float) : bool :=
  match Prim2SF f with
  | S754_zero _ | S754_finite _ _ _ => true
  | _ => false
  end.

(** A row whose score is a number. *)
Definition not_nan (r : scored) : Prop := Prim2SF (score_of r) <> S754_nan.

(** Rows in the order of the sort keys. *)
Definition ranked (l : list scored) : Prop :=
  Sorted (fun a b => before a b = true) l.

(** What a shortlist at threshold [th] guarantees: rows of the scored
    table, all at or above the threshold, and at least one row as soon as
    some contact reaches the threshold. *)
Definition in_tier (th : Z) (df rows : list scored) : Prop :=
  Forall (fun r => score_ge th r = true) rows
  /\ incl rows df
  /\ ((exists r, In r df /\ score_ge th r = true) -> rows <> []).

Section Selector.
Context {F : RapidFuzz}.

(** [contacts_df["norm_name"].apply(lambda c: full_score(n, c))] *)
Definition score_column (n : str) (contacts_df : list row) : res (list pynum) :=
  mapM (fun c => full_score n (norm_name c)) contacts_df.

Definition with_reason (guest_norm : str) (r : scored) : res candidate :=
  s <- py_int (snd r) ;;
  Ok {| contact := fst r;
        score := snd r;
        reason := reason_for guest_norm (norm_name (fst r)) s |}.

(** [candidates["reason"] = candidates.apply(lambda r: ..., axis=1)].
    On a frame without rows pandas has no row to call the function on:
    it tries the function on a row of [nan], the [int(nan)] inside
    raises, and [apply] then returns the (empty) frame itself; assigning
    that frame, which has several columns, to the one column "reason"
    raises [ValueError]. *)
Definition attach_reason (guest_norm : str) (candidates : list scored)
  : res (list candidate) :=
  match candidates with
  | [] => Raise ValueError
  | _ => mapM (with_reason guest_norm) candidates
  end.

Definition top_matches (guest_norm : str) (contacts_df : list row)
  : res (list candidate) :=
  if negb (nonempty guest_norm) then Ok []
  else
    scores <- score_column guest_norm contacts_df ;;
    let df := combine contacts_df scores in
    max_score <- float_trunc (series_max (map to_float scores)) ;;
    attach_reason guest_norm (tiered max_score df).

Definition compute_best_scores (guests_df contacts_df : list row)
  : res (list Z) :=
  mapM
    (fun g =>
       let n := norm_name g in
       if nonempty n then
         scores <- score_column n contacts_df ;;
         float_trunc (series_max (map to_float scores))
       else Ok 0)
    guests_df.
End Selector.

(** The tiered policy, for the scored table [df], the truncated maximum
    [m] and the rows [shown] of the result. *)
Definition tier_policy (df : list scored) (m : Z) (shown : list scored) : Prop :=
  (m = 100 -> in_tier 90 df shown)
  /\ (m <> 100 -> (exists r, In r df /\ score_ge 70 r = true) ->
      in_tier 70 df shown)
  /\ (m <> 100 -> (forall r, In r df -> score_ge 70 r = false) ->
      in_tier 50 df shown)
  /\ ranked shown.

(** The threshold of the active tier, for the integer part [m] of the
    maximum score and the scored table [df]: 90 after a perfect match,
    otherwise 70, and 50 when no contact reaches 70. *)
Definition active_threshold (m : Z) (df : list scored) : Z :=
  if m =? 100 then 90
  else if existsb (score_ge 70) df then 70
  else 50.

(** The result is the first three rows of the ranking of the rows that
    reach the threshold of the active tier. *)
Definition first_three (m : Z) (df shown : list scored) : Prop :=
  exists all : list scored,
    Permutation all (filter (score_ge (active_threshold m df)) df)
    /\ ranked all
    /\ shown = firstn 3 all.

(** ** A model of the rapidfuzz functions

    Modelled from the library's documented algorithms, to evaluate the
    scorer on concrete names: the uniform Levenshtein distance, the
    InDel distance (through the longest common subsequence) and the ratios
    built on them. *)

Fixpoint lev_row (a : codepoint) (t : str) (prev : list nat) (left : nat)
  : list nat :=
  match t, prev with
  | b :: t', diag :: ((up :: _) as prev') =>
      let v := Nat.min (Nat.min (S up) (S left))
                       (if N.eqb a b then diag else S diag) in
      v :: lev_row a t' prev' v
  | _, _ => []
  end.

Definition levenshtein (s t : str) : nat :=
  last
    (fold_left
       (fun prev a =>
          match prev with
          | p0 :: _ => S p0 :: lev_row a t prev (S p0)
          | [] => []
          end)
       s (seq 0 (S (length t))))
    0%nat.

Fixpoint lcs_row (a : codepoint) (t : str) (prev : list nat) (left : nat)
  : list nat :=
  match t, prev with
  | b :: t', diag :: ((up :: _) as prev') =>
      let v := if N.eqb a b then S diag else Nat.max up left in
      v :: lcs_row a t' prev' v
  | _, _ => []
  end.

Definition lcs (s t : str) : nat :=
  last
    (fold_left (fun prev a => 0%nat :: lcs_row a t prev 0%nat) s
       (repeat 0%nat (S (length t))))
    0%nat.

Definition indel (s t : str) : nat :=
  (length s + length t - 2 * lcs s t)%nat.

(** [1 - dist / max(len)], and 1 for two empty strings. *)
Definition lev_normalized_similarity (s t : str) : float :=
  let maximum := Nat.max (length s) (length t) in
  let norm_dist :=
    if (maximum =? 0)%nat then 0%float
    else (float_of_nat (levenshtein s t) / float_of_nat maximum)%float in
  (1 - norm_dist)%float.

Definition indel_normalized_similarity (s t : str) : float :=
  let maximum := (length s + length t)%nat in
  let norm_dist :=
    if (maximum =? 0)%nat then 0%float
    else (float_of_nat (indel s t) / float_of_nat maximum)%float in
  (1 - norm_dist)%float.

Definition ratio_model (s t : str) : float :=
  (indel_normalized_similarity s t * 100)%float.

(** [100 - 100 * dist / lensum], and 100 when there is nothing to compare. *)
Definition norm_distance (dist lensum : nat) : float :=
  if (0 <? lensum)%nat
  then (100 - float_of_nat (100 * dist) / float_of_nat lensum)%float
  else 100%float.

Definition fmax (a b : float) : float := if (a <? b)%float then b else a.

Fixpoint insert_str (x : str) (l : list str) : list str :=
  match l with
  | [] => [x]
  | y :: l' => if str_leb x y then x :: l else y :: insert_str x l'
  end.

Definition sorted_strs (l : list str) : list str := fold_right insert_str [] l.

(** [s.split()]: the non-empty pieces between whitespace runs. *)
Definition split_words (s : str) : list str := filter nonempty (re_split_ws s).

Definition b2n (b : bool) : nat := if b then 1%nat else 0%nat.

Definition token_set_ratio_model (s1 s2 : str) : float :=
  let tokens_a := dedup (split_words s1) in
  let tokens_b := dedup (split_words s2) in
  match tokens_a, tokens_b with
  | [], _ | _, [] => 0%float
  | _, _ =>
      let intersect := filter (fun t => mem t tokens_b) tokens_a in
      let diff_ab := filter (fun t => negb (mem t tokens_b)) tokens_a in
      let diff_ba := filter (fun t => negb (mem t tokens_a)) tokens_b in
      match intersect, diff_ab, diff_ba with
      | _ :: _, [], _ | _ :: _, _, [] => 100%float
      | _, _, _ =>
          let diff_ab_joined := join [SPACE] (sorted_strs diff_ab) in
          let diff_ba_joined := join [SPACE] (sorted_strs diff_ba) in
          let ab_len := length diff_ab_joined in
          let ba_len := length diff_ba_joined in
          let sect_len := length (join [SPACE] intersect) in
          let sep := b2n (negb (sect_len =? 0)%nat) in
          let sect_ab_len := (sect_len + sep + ab_len)%nat in
          let sect_ba_len := (sect_len + sep + ba_len)%nat in
          let result :=
            norm_distance (indel diff_ab_joined diff_ba_joined)
                          (sect_ab_len + sect_ba_len) in
          if (sect_len =? 0)%nat then result
          else
            let sect_ab_ratio :=
              norm_distance (sep + ab_len) (sect_len + sect_ab_len) in
            let sect_ba_ratio :=
              norm_distance (sep + ba_len) (sect_len + sect_ba_len) in
            fmax (fmax result sect_ab_ratio) sect_ba_ratio
      end
  end.

(** The best [ratio] of the shorter string against the windows of the
    longer one: its proper prefixes shorter than the window, every
    full-length window, and its suffixes. *)
Definition windows (len1 : nat) (s2 : str) : list str :=
  map (fun i => firstn i s2) (seq 1 (len1 - 1))
  ++ map (fun i => firstn len1 (skipn i s2)) (seq 0 (length s2 - len1))
  ++ map (fun i => skipn i s2) (seq (length s2 - len1) len1).

Definition partial_ratio_impl (s1 s2 : str) : float :=
  fold_left (fun best w => fmax best (ratio_model s1 w))
            (windows (length s1) s2) 0%float.

Definition partial_ratio_model (s1 s2 : str) : float :=
  match s1, s2 with
  | [], [] => 100%float
  | [], _ | _, [] => 0%float
  | _, _ =>
      if (length s1 <? length s2)%nat then partial_ratio_impl s1 s2
      else if (length s2 <? length s1)%nat then partial_ratio_impl s2 s1
      else fmax (partial_ratio_impl s1 s2) (partial_ratio_impl s2 s1)
  end.

Definition rapidfuzz_model : RapidFuzz :=
  {| normalized_similarity := lev_normalized_similarity;
     ratio := ratio_model;
     token_set_ratio := token_set_ratio_model;
     partial_ratio := partial_ratio_model |}.

(** The contact tokens the inner loop does not skip. *)
Definition unused (used : list str) (c : str) : bool := negb (mem c used).

(** ** The specification's wording of two steps, for comparison *)

(** Per-token cleaning as an else-if chain: at most one of the three
    actions is taken. *)
Definition clean_token_elif (tok : str) : str :=
  if mem tok SUFFIX_TOKENS then []
  else if starts_with (N.eqb LETTER_V) tok && (2 <? length tok)%nat then tl tok
  else if (4 <=? length tok)%nat && ends_with LETTER_I tok then removelast tok
  else tok.

Fixpoint remove_first (c : str) (l : list str) : list str :=
  match l with
  | [] => []
  | x :: l' => if str_eqb c x then l' else x :: remove_first c l'
  end.

(** The Jaccard ratio of a match count and two sizes, 1.0 when the union
    is empty. *)
Definition jaccard_of (matches g_size c_size : nat) : float :=
  let union := Z.of_nat g_size + Z.of_nat c_size - Z.of_nat matches in
  if union =? 0 then 1%float
  else (float_of_nat matches / float_of_Z union)%float.

Section JaccardSpec.
Context {F : RapidFuzz}.

(** Greedy one-to-one matching: each guest token takes the first
    contact token still available that is fuzzy-equal to it, and that
    occurrence is consumed. *)
Fixpoint greedy_matches (gs avail : list str) : nat :=
  match gs with
  | [] => 0%nat
  | g :: gs' =>
      match find (_fuzzy_eq g) avail with
      | Some c => S (greedy_matches gs' (remove_first c avail))
      | None => greedy_matches gs' avail
      end
  end.

(** Match count over [|G| + |C| - matches]. *)
Definition fuzzy_jaccard_spec (gs cs : list str) : float :=
  jaccard_of (greedy_matches gs cs) (length gs) (length cs).
End JaccardSpec.

(** ** Example tables *)

Definition row_of (name norm : string) : row :=
  {| full_name := py name; phone := py "050-0000000"; norm_name := py norm |}.

(** Four spellings of one name; all four normalize to "dan cohen". *)
Definition four_contacts : list row :=
  [ row_of "Dan Cohen" "dan cohen";
    row_of "DAN COHEN" "dan cohen";
    row_of "dan cohen" "dan cohen";
    row_of "Dan-Cohen" "dan cohen" ].

Definition two_contacts : list row :=
  [ row_of "Dan Michael Cohen Levy" "dan michael cohen levy";
    row_of "Yossi Levy" "yossi levy" ].

(** Two candidates as the selector hands them to the options. *)
Definition shown_candidates : list scored :=
  [ (row_of "Dan | Cohen" "dan cohen", PyInt 100);
    (row_of "Yossi Levy" "yossi levy", PyFloat 66.5) ].

(** ** Phone numbers ([logic.py], [app.py], [whatsapp_utils.py]) *)

(** The two digit classes of Python: the regex class [\d] and
    [str.isdigit].  Beyond ASCII they are data of the Unicode database. *)
Class Digits : Type := {
  re_digit : codepoint -> bool;
  py_isdigit : codepoint -> bool
}.

Definition ascii_digit (c : codepoint) : bool := ((48 <=? c) && (c <=? 57))%N.

(** On ASCII both classes are the digits 0-9. *)
Definition digits_on_ascii (D : Digits) : Prop :=
  forall c, is_ascii c -> re_digit c = ascii_digit c /\ py_isdigit c = ascii_digit c.

(** A model of the two classes that knows the ASCII digits only. *)
Definition digits_excerpt : Digits :=
  {| re_digit := ascii_digit; py_isdigit := ascii_digit |}.

(** [s or ""] *)
Definition or_empty (s : option str) : str :=
  match s with
  | Some x => x
  | None => []
  end.

(** [s.startswith(prefix)] *)
Fixpoint startswith (prefix s : str) : bool :=
  match prefix, s with
  | [], _ => true
  | _ :: _, [] => false
  | x :: prefix', y :: s' => N.eqb x y && startswith prefix' s'
  end.

Definition ZERO : codepoint := 48%N.
Definition HYPHEN : codepoint := 45%N.
Definition NEWLINE : codepoint := 10%N.

Section Phones.
Context {D : Digits}.

(** [logic.only_digits]: [re.sub(r"\D+", "", s or "")] deletes every run of
    characters outside [\d]. *)
Definition only_digits (s : option str) : str := filter re_digit (or_empty s).

(** [logic.format_phone] *)
Definition format_phone (ph : str) : str :=
  let d := filter py_isdigit ph in
  let d := if startswith (py "972") d then ZERO :: skipn 3 d else d in
  if (length d =? 10)%nat then firstn 3 d ++ [HYPHEN] ++ skipn 3 d else d.

(** [re.compile(r"^<first>\d{n}$").match(d)]: the first characters, [n]
    digits, and then the end of the string or one final newline. *)
Definition match_digits (first : str) (n : nat) (d : str) : bool :=
  startswith first d
  && (let r := skipn (length first) d in
      (length (firstn n r) =? n)%nat
      && forallb re_digit (firstn n r)
      && match skipn n r with
         | [] => true
         | [c] => N.eqb c NEWLINE
         | _ => false
         end).

(** [app.normalize_phone_basic], with [PHONE_PATTERN = ^0\d{9}$]. *)
Definition normalize_phone_basic (p : option str) : option str :=
  let d := filter re_digit (or_empty p) in
  if match_digits (py "0") 9 d then Some d else None.

(** [whatsapp_utils.normalize_phone] *)
Definition normalize_phone (phone : str) : str :=
  match phone with
  | [] => []
  | _ =>
      let digits := filter re_digit phone in
      if startswith (py "972") digits then ZERO :: skipn 3 digits else digits
  end.

(** [whatsapp_utils.validate_phone] *)
Definition validate_phone (phone : str) : bool :=
  match_digits (py "05") 8 (normalize_phone phone).
End Phones.

(** ** The options shown for a guest ([app.py]) *)

Definition CROSS_MARK : codepoint := 10060%N.
Definition PLUS_SIGN : codepoint := 10133%N.
Definition MAGNIFIER : codepoint := 128269%N.
Definition TARGET : codepoint := 127919%N.
Definition BAR : codepoint := 124%N.

(** The three fixed options: no match, manual entry, contact search. *)
Definition NO_MATCH : str :=
  [10060; 32; 1500; 1500; 1488; 32; 1492; 1514; 1488; 1502; 1492]%N.
Definition MANUAL_ENTRY : str :=
  [10133; 32; 1492; 1494; 1504; 1492; 32; 1497; 1491; 1504; 1497; 1514]%N.
Definition CONTACT_SEARCH : str :=
  [128269; 32; 1495; 1497; 1508; 1493; 1513; 32; 1488; 1504; 1513; 1497; 32;
   1511; 1513; 1512]%N.

(** [s.replace(a + b, "")] for a pattern of two characters: its
    occurrences are removed from left to right, without overlap. *)
Fixpoint remove_pair (a b : codepoint) (s : str) : str :=
  match s with
  | x :: ((y :: s'') as s') =>
      if N.eqb x a && N.eqb y b then remove_pair a b s''
      else x :: remove_pair a b s'
  | _ => s
  end.

(** [s.split(c)] for a one-character separator: empty pieces are kept. *)
Fixpoint split_on (c : codepoint) (s : str) : list str :=
  match s with
  | [] => [[]]
  | x :: s' =>
      if N.eqb x c then [] :: split_on c s'
      else
        match split_on c s' with
        | piece :: rest => (x :: piece) :: rest
        | [] => [[x]]
        end
  end.

Section Options.
Context {D : Digits}.

(** The text of one candidate: the name, the formatted phone, and a target
    sign in front when the score is 100. *)
Definition option_text (cand : scored) : res str :=
  let name := full_name (fst cand) in
  let ph := format_phone (phone (fst cand)) in
  sc <- py_int (snd cand) ;;
  Ok (if sc =? 100 then [TARGET; SPACE] ++ name ++ py " | " ++ ph
      else name ++ py " | " ++ ph).

(** [app.create_radio_options] *)
Definition create_radio_options (candidates : list scored) : res (list str) :=
  texts <- mapM option_text candidates ;;
  Ok ([NO_MATCH] ++ texts ++ [MANUAL_ENTRY; CONTACT_SEARCH]).

(** [app.extract_phone_from_choice] *)
Definition extract_phone_from_choice (choice : str) : str :=
  if starts_with (N.eqb CROSS_MARK) choice then []
  else if starts_with (N.eqb PLUS_SIGN) choice
          || starts_with (N.eqb MAGNIFIER) choice then []
  else strip (last (split_on BAR (remove_pair TARGET SPACE choice)) []).
End Options.

(** ** Notions used to state the properties of the phone helpers *)

(** The digits with an international prefix 972 replaced by 0. *)
Definition local_digits (d : str) : str :=
  if startswith (py "972") d then ZERO :: skipn 3 d else d.

(** Ten digits written as XXX-XXXXXXX; any other text as it is. *)
Definition dashed (d : str) : str :=
  if (length d =? 10)%nat then firstn 3 d ++ [HYPHEN] ++ skipn 3 d else d.

(** A text that begins with one of the signs of the three fixed options. *)
Definition marked (s : str) : bool :=
  starts_with (N.eqb CROSS_MARK) s
  || starts_with (N.eqb PLUS_SIGN) s
  || starts_with (N.eqb MAGNIFIER) s.

(** A character of a formatted phone: an ASCII digit or the hyphen. *)
Definition phone_char (c : codepoint) : Prop :=
  ascii_digit c = true \/ c = HYPHEN.

(** ** The phone column of the allow-list sheet ([logic.py]) *)

(** The header names [_find_phone_col] looks for. *)
Definition PHONE_HEADERS : list str :=
  [ [1496; 1500; 1508; 1493; 1503]%N;
    [1502; 1505; 1508; 1512; 32; 1508; 1500; 1488; 1508; 1493; 1503]%N;
    [1508; 1500; 1488; 1508; 1493; 1503]%N;
    py "phone";
    [1502; 1505; 1508; 1512]%N ].

(** [for i, h in enumerate(l): if p(h): return i], counting from [i]. *)
Fixpoint first_index (p : str -> bool) (l : list str) (i : nat) : option nat :=
  match l with
  | [] => None
  | h :: l' => if p h then Some i else first_index p l' (S i)
  end.

Section PhoneColumn.
Context {U : Unicode}.

(** A header cell that, trimmed and lower-cased, is one of the names. *)
Definition phone_header (h : str) : bool :=
  mem (py_lower (strip h)) (map py_lower PHONE_HEADERS).

Definition _find_phone_col (header : list str) : nat :=
  match first_index phone_header header 0 with
  | Some i => i
  | None => 1%nat
  end.
End PhoneColumn.

(** ** The automatic choice among the options ([app.py]) *)

(** [p in s] for two strings. *)
Fixpoint is_infix (p s : str) : bool :=
  startswith p s
  || match s with
     | [] => false
     | _ :: s' => is_infix p s'
     end.

(** [app.get_auto_select_index]: the index of the first option that
    contains the name of the first candidate and is not one of the fixed
    options, when that candidate's score reaches the threshold; 0
    otherwise.  (The message the function shows is not modelled.) *)
Definition get_auto_select_index (candidates : list scored) (options : list str)
  : nat :=
  match candidates with
  | [] => 0%nat
  | best :: _ =>
      if (float_of_Z AUTO_SELECT_TH <=? to_float (snd best))%float then
        match
          first_index
            (fun option => is_infix (full_name (fst best)) option
                           && negb (marked option))
            options 0
        with
        | Some i => i
        | None => 0%nat
        end
      else 0%nat
  end.

(** ** Notions used to state the properties of the aggregator and selector *)

(** A key whose lexicographic order is the order of the floats: the class
    (negative infinity, negative, zero, positive, positive infinity), then
    the exponent, then the mantissa. *)
Definition sf_key (x : spec_float) : Z * Z * Z :=
  match x with
  | S754_infinity true => (-2, 0, 0)
  | S754_finite true m e => (-1, - e, - Zpos m)
  | S754_zero _ => (0, 0, 0)
  | S754_finite false m e => (1, e, Zpos m)
  | S754_infinity false => (2, 0, 0)
  | S754_nan => (3, 0, 0)
  end.

Definition key_lt (a b : Z * Z * Z) : Prop :=
  let '(a1, a2, a3) := a in
  let '(b1, b2, b3) := b in
  a1 < b1 \/ (a1 = b1 /\ (a2 < b2 \/ (a2 = b2 /\ a3 < b3))).

(** A float that is not [nan]. *)
Definition a_number (f : float) : Prop := Prim2SF f <> S754_nan.

Definition float_key (f : float) : Z * Z * Z := sf_key (Prim2SF f).

(** [b] is the best score of the name [n]: the truncation of a score that
    some contact attains and that no contact's score exceeds. *)
Definition best_of {F : RapidFuzz} (n : str) (contacts_df : list row) (b : Z) : Prop :=
  exists scores top,
    score_column n contacts_df = Ok scores
    /\ In top scores
    /\ (forall s, In s scores -> (to_float top <? to_float s)%float = false)
    /\ float_trunc (to_float top) = Ok b.

(** ** Results of the example tables *)

(** What [top_matches] returns for the guest "dan cohen" and the four
    contacts. *)
Definition four_result : list candidate :=
  Eval vm_compute in
    match top_matches (F := rapidfuzz_model) (py "dan cohen") four_contacts with
    | Ok rows => rows
    | Raise _ => []
    end.

(** The options built for the two candidates. *)
Definition shown_options : list str :=
  Eval vm_compute in
    match create_radio_options (D := digits_excerpt) shown_candidates with
    | Ok options => options
    | Raise _ => []
    end.

(** * Properties *)


(** ** Strings *)

Lemma str_eqb_eq (a b : str) : str_eqb a b = true <-> a = b.
Proof.
  revert b; induction a as [|x a IH]; destruct b as [|y b]; simpl;
    try (split; [discriminate | congruence]); [tauto|].
  rewrite andb_true_iff, N.eqb_eq, IH. split.
  - intros [-> ->]; reflexivity.
  - intros E; injection E; auto.
Qed.

Lemma str_eqb_refl (a : str) : str_eqb a a = true.
Proof. apply str_eqb_eq; reflexivity. Qed.

Lemma str_eqb_sym (a b : str) : str_eqb a b = str_eqb b a.
Proof.
  destruct (str_eqb a b) eqn:E.
  - apply str_eqb_eq in E; subst; symmetry; apply str_eqb_refl.
  - destruct (str_eqb b a) eqn:E'; [|reflexivity].
    apply str_eqb_eq in E'; subst; rewrite str_eqb_refl in E; discriminate.
Qed.

Lemma strs_eqb_eq (a b : list str) : strs_eqb a b = true <-> a = b.
Proof.
  revert b; induction a as [|x a IH]; destruct b as [|y b]; simpl;
    try (split; [discriminate | congruence]); [tauto|].
  rewrite andb_true_iff, str_eqb_eq, IH. split.
  - intros [-> ->]; reflexivity.
  - intros E; injection E; auto.
Qed.

Lemma mem_In (x : str) (l : list str) : mem x l = true <-> In x l.
Proof.
  unfold mem; rewrite existsb_exists; split.
  - intros (y & Hy & E); apply str_eqb_eq in E; subst; assumption.
  - intros H; exists x; split; [assumption | apply str_eqb_refl].
Qed.

Lemma nonempty_false (s : str) : nonempty s = false <-> s = [].
Proof. destruct s; simpl; split; congruence. Qed.

Lemma nonempty_true (s : str) : nonempty s = true <-> s <> [].
Proof. destruct s; simpl; split; congruence. Qed.

(** ** Tokenizer *)

Lemma ends_with_tl (c : codepoint) (tok : str) :
  (2 <= length tok)%nat -> ends_with c (tl tok) = ends_with c tok.
Proof.
  destruct tok as [|x tok]; simpl; [lia|]. intros H.
  unfold ends_with; simpl.
  destruct tok as [|y tok]; simpl in *; [lia|].
  destruct (rev tok ++ [y]) as [|z l] eqn:E.
  - destruct (rev tok); discriminate.
  - simpl; reflexivity.
Qed.

(** C6 (counterexample): on the token "vardi" the code strips the leading
    "v" and then also the trailing "i", giving "ard"; the else-if chain of
    the specification would stop after the leading letter and give "ardi". *)
Lemma clean_token_strips_both :
  _clean_token (py "vardi") = py "ard"
  /\ clean_token_elif (py "vardi") = py "ardi".
Proof. split; reflexivity. Qed.

(** C6 (amended): per-token cleaning is sequential, not an else-if chain.
    A token of the noise-suffix set is dropped; otherwise a leading "v" of
    a token longer than 2 is stripped, and then a trailing "i" is stripped
    as well when the token that remains has length >= 4 (so a token
    "v...i" of length >= 5 loses both letters); a token that keeps its
    first letter loses a trailing "i" when its length is >= 4. *)
Theorem clean_token_sequential (tok : str) :
  _clean_token tok =
    if mem tok SUFFIX_TOKENS then []
    else if starts_with (N.eqb LETTER_V) tok && (2 <? length tok)%nat then
      if (5 <=? length tok)%nat && ends_with LETTER_I tok
      then removelast (tl tok) else tl tok
    else
      if (4 <=? length tok)%nat && ends_with LETTER_I tok
      then removelast tok else tok.
Proof.
  unfold _clean_token.
  destruct (mem tok SUFFIX_TOKENS); [reflexivity|].
  destruct (starts_with (N.eqb LETTER_V) tok && (2 <? length tok)%nat) eqn:Hv;
    [|reflexivity].
  apply andb_true_iff in Hv; destruct Hv as [_ Hlen].
  apply Nat.ltb_lt in Hlen.
  rewrite ends_with_tl by lia.
  replace (4 <=? length (tl tok))%nat with (5 <=? length tok)%nat; [reflexivity|].
  destruct tok as [|x tok]; simpl in *; [lia|].
  destruct (Nat.leb_spec 5 (S (length tok))), (Nat.leb_spec 4 (length tok));
    try reflexivity; lia.
Qed.

(** ** Scorer: the early returns *)

Lemma str_eqb_neq (a b : str) : a <> b -> str_eqb a b = false.
Proof.
  intros H; destruct (str_eqb a b) eqn:E; [|reflexivity].
  apply str_eqb_eq in E; contradiction.
Qed.

Lemma strs_eqb_neq (a b : list str) : a <> b -> strs_eqb a b = false.
Proof.
  intros H; destruct (strs_eqb a b) eqn:E; [|reflexivity].
  apply strs_eqb_eq in E; contradiction.
Qed.

(** C9: [full_score] is 0 as soon as one argument is the empty string,
    and [top_matches] returns a table without rows for the empty guest
    name; neither raises. *)
Theorem degenerate_inputs (F : RapidFuzz) :
  (forall c, full_score [] c = Ok (PyInt 0))
  /\ (forall g, full_score g [] = Ok (PyInt 0))
  /\ (forall contacts_df, top_matches [] contacts_df = Ok []).
Proof.
  repeat split.
  - intros g; unfold full_score; destruct g; reflexivity.
Qed.

(** C7: two non-empty names that are equal once trimmed, or whose cleaned
    token sequences are equal as ordered sequences, score exactly 100; in
    particular a non-empty name scores 100 against itself. *)
Theorem full_score_auto_match (F : RapidFuzz) (g c : str) :
  g <> [] -> c <> [] ->
  strip g = strip c \/ _tokens g = _tokens c ->
  full_score g c = Ok (PyInt 100) /\ full_score g g = Ok (PyInt 100).
Proof.
  intros Hg Hc H.
  apply nonempty_true in Hg; apply nonempty_true in Hc.
  unfold full_score; rewrite Hg, Hc; simpl.
  split.
  - destruct (str_eqb (strip g) (strip c)) eqn:E; [reflexivity|].
    destruct H as [H | H].
    + rewrite H, str_eqb_refl in E; discriminate.
    + apply strs_eqb_eq in H; rewrite H; reflexivity.
  - rewrite str_eqb_refl; reflexivity.
Qed.

(** A name followed by a noise word ("mil") against the bare name: the
    cleaned tokens coincide. *)
Lemma full_score_auto_match_witness :
  full_score (F := rapidfuzz_model) (py "yossi cohen mil") (py "yossi  cohen")
    = Ok (PyInt 100)
  /\ full_score (F := rapidfuzz_model) (py "yossi cohen mil") (py "yossi cohen mil")
    = Ok (PyInt 100).
Proof.
  apply (full_score_auto_match rapidfuzz_model).
  - discriminate.
  - discriminate.
  - right; reflexivity.
Defined.

(** The degenerate branch hands back the library's float as it is: the
    result is not rounded to an [int]. *)
Lemma full_score_fallback (F : RapidFuzz) (g c : str) :
  g <> [] -> c <> [] -> strip g <> strip c ->
  _tokens g <> _tokens c ->
  _tokens g = [] \/ _tokens c = [] ->
  full_score g c = Ok (PyFloat (partial_ratio g c)).
Proof.
  intros Hg Hc Hs Ht He.
  apply nonempty_true in Hg; apply nonempty_true in Hc.
  unfold full_score; rewrite Hg, Hc; simpl.
  rewrite (str_eqb_neq _ _ Hs), (strs_eqb_neq _ _ Ht).
  destruct He as [-> | ->]; [reflexivity|].
  destruct (_tokens g); reflexivity.
Qed.

Lemma full_score_fallback_example :
  full_score (F := rapidfuzz_model) (py "mil") (py "mal")
    = Ok (PyFloat (partial_ratio_model (py "mil") (py "mal")))
  /\ py_round (partial_ratio_model (py "mil") (py "mal")) = Ok 67.
Proof. split; vm_compute; reflexivity. Qed.

(** C1 (failing input): guest "alexandrina alexandrina" against contact
    "alexandrina alexandrino".  The second guest token is matched to the
    near-equal contact token, so both guest tokens are matched, while the
    union counts the guest's distinct tokens only: 1 + 2 - 2 = 1, the
    Jaccard signal is 2.0 and the score is 120.  The three facts assumed
    of the library are its documented values on this input. *)
Theorem full_score_above_100 (F : RapidFuzz) :
  ratio (py "alexandrina") (py "alexandrina") = 100%float ->
  token_set_ratio (py "alexandrina alexandrina") (py "alexandrina alexandrino")
    = 100%float ->
  normalized_similarity (py "alexandrina") (py "alexandrino")
    = (1 - 1 / 11)%float ->
  _fuzzy_jaccard [py "alexandrina"; py "alexandrina"]
                 [py "alexandrina"; py "alexandrino"] = 2%float
  /\ full_score (py "alexandrina alexandrina") (py "alexandrina alexandrino")
     = Ok (PyInt 120).
Proof.
  intros Hr Ht Hs.
  vm_compute in Hr, Ht, Hs.
  split.
  - vm_compute. rewrite Hs. vm_compute. reflexivity.
  - vm_compute. rewrite Hr, Ht, Hs. vm_compute. reflexivity.
Qed.

Lemma full_score_above_100_witness :
  _fuzzy_jaccard (F := rapidfuzz_model)
     [py "alexandrina"; py "alexandrina"]
     [py "alexandrina"; py "alexandrino"] = 2%float
  /\ full_score (F := rapidfuzz_model)
       (py "alexandrina alexandrina") (py "alexandrina alexandrino")
     = Ok (PyInt 120).
Proof.
  apply (full_score_above_100 rapidfuzz_model); vm_compute; reflexivity.
Defined.

(** ** Best-score aggregator *)

(** C3 (failing input): a guest with a non-empty normalized name against a
    contact table without rows.  The score column is empty, its maximum is
    [nan], and [int(nan)] raises [ValueError]; the specification says 0.
    Guests with an empty name before it get their 0, and then the call
    raises. *)
Theorem compute_best_scores_no_contacts (F : RapidFuzz) (guests_df : list row) :
  (exists g, In g guests_df /\ norm_name g <> []) ->
  compute_best_scores guests_df [] = Raise ValueError.
Proof.
  unfold compute_best_scores.
  match goal with |- context [mapM ?f _] => set (best := f) end.
  induction guests_df as [|g0 guests_df IH]; intros (g & Hin & Hg).
  - contradiction.
  - cbn [mapM].
    assert (Hb : best g0 = if nonempty (norm_name g0)
                           then Raise ValueError else Ok 0).
    { unfold best; cbv zeta; destruct (nonempty (norm_name g0)); reflexivity. }
    rewrite Hb; destruct (nonempty (norm_name g0)) eqn:E; [reflexivity|].
    cbn [bind]; rewrite IH; [reflexivity|].
    destruct Hin as [-> | Hin]; [|eauto].
    apply nonempty_true in Hg; congruence.
Qed.

Lemma compute_best_scores_no_contacts_witness :
  compute_best_scores (F := rapidfuzz_model)
    [ row_of "" ""; row_of "Dan Cohen" "dan cohen" ] []
  = Raise ValueError.
Proof.
  apply (compute_best_scores_no_contacts rapidfuzz_model).
  exists (row_of "Dan Cohen" "dan cohen"); split.
  - right; left; reflexivity.
  - discriminate.
Defined.

(** A guest without a name scores 0 whatever the contact table is. *)
Lemma compute_best_scores_no_name (F : RapidFuzz) (contacts_df : list row) :
  compute_best_scores [ row_of "" "" ] contacts_df = Ok [0].
Proof. reflexivity. Qed.

(** ** Normalizer *)

Lemma unidecode_into_ascii (U : Unicode) (s : str) :
  table_into_ascii U -> Forall is_ascii (unidecode s).
Proof.
  intros HT; unfold unidecode.
  induction s as [|c s IH]; simpl; [constructor|].
  apply Forall_app; split; [|exact IH].
  destruct (N.ltb_spec c 128); [|apply HT].
  constructor; [assumption | constructor].
Qed.

Lemma xtable_excerpt_ascii : table_into_ascii unicode_excerpt.
Proof.
  intros c; simpl; unfold xtable_excerpt.
  repeat match goal with
         | |- context [if ?b then _ else _] => destruct b
         end;
    repeat constructor.
Qed.

Lemma lower_excerpt_ascii : lower_on_ascii unicode_excerpt.
Proof. intros s _; reflexivity. Qed.

(** C10: whatever the input, [normalize] returns ASCII text, because the
    transliteration is the last step and every entry of its table is
    ASCII. *)
Theorem normalize_ascii (U : Unicode) (txt : option str) :
  table_into_ascii U -> Forall is_ascii (normalize txt).
Proof.
  intros HT; destruct txt as [[|c t]|]; simpl; try constructor.
  apply unidecode_into_ascii; assumption.
Qed.

Lemma normalize_ascii_witness :
  Forall is_ascii (normalize (U := unicode_excerpt) (Some [21271; 20144]%N)).
Proof.
  apply (normalize_ascii unicode_excerpt), xtable_excerpt_ascii.
Defined.

(** C4 (counterexample): the two-character text U+5317 U+4EB0 is
    transliterated to "Bei Jing " (capitals and a trailing space come out
    of the last step), and normalizing that again gives "bei jing". *)
Lemma normalize_not_idempotent :
  normalize (U := unicode_excerpt) (Some [21271; 20144]%N) = py "Bei Jing "
  /\ normalize (U := unicode_excerpt) (Some (py "Bei Jing ")) = py "bei jing".
Proof. split; reflexivity. Qed.

Lemma unidecode_ascii_id (U : Unicode) (s : str) :
  Forall is_ascii s -> unidecode s = s.
Proof.
  unfold unidecode; induction 1 as [|c s Hc _ IH]; simpl; [reflexivity|].
  unfold is_ascii in Hc; apply N.ltb_lt in Hc; rewrite Hc, IH; reflexivity.
Qed.

Lemma ascii_lower_lowered (c : codepoint) : lowered (ascii_lower c).
Proof.
  unfold lowered, ascii_lower.
  destruct ((65 <=? c) && (c <=? 90))%N eqn:E; [|rewrite E; reflexivity].
  apply andb_true_iff in E; destruct E as [E1 E2].
  apply N.leb_le in E1, E2.
  destruct ((65 <=? c + 32) && (c + 32 <=? 90))%N eqn:E'; [|reflexivity].
  apply andb_true_iff in E'; destruct E' as [_ E']; apply N.leb_le in E'; lia.
Qed.

Lemma ascii_lower_ascii (c : codepoint) : is_ascii c -> is_ascii (ascii_lower c).
Proof.
  unfold is_ascii, ascii_lower; intros H.
  destruct ((65 <=? c) && (c <=? 90))%N eqn:E; [|assumption].
  apply andb_true_iff in E; destruct E as [_ E]; apply N.leb_le in E; lia.
Qed.

Lemma map_lower_id (s : str) : Forall lowered s -> map ascii_lower s = s.
Proof. induction 1 as [|c s Hc _ IH]; simpl; [|rewrite Hc, IH]; reflexivity. Qed.

Section Runs.
Variable P : codepoint -> Prop.

Lemma sub_runs_Forall (p : codepoint -> bool) (s : str) :
  P SPACE -> Forall P s -> Forall P (sub_runs p s).
Proof.
  intros HS; induction 1 as [|c s Hc _ IH]; simpl; [constructor|].
  destruct (p c); [destruct (starts_with p s)|]; auto.
Qed.

Lemma lstrip_Forall (s : str) : Forall P s -> Forall P (lstrip s).
Proof.
  induction 1 as [|c s Hc Hs IH]; simpl; [constructor|].
  destruct (isspace c); auto.
Qed.

Lemma rstrip_Forall (s : str) : Forall P s -> Forall P (rstrip s).
Proof.
  induction 1 as [|c s Hc Hs IH]; simpl; [constructor|].
  destruct (rstrip s); [destruct (isspace c)|]; auto.
Qed.

Lemma strip_Forall (s : str) : Forall P s -> Forall P (strip s).
Proof. intros H; apply rstrip_Forall, lstrip_Forall, H. Qed.
End Runs.

Lemma sub_runs_clears (p : codepoint -> bool) (s : str) :
  p SPACE = false -> Forall (fun c => p c = false) (sub_runs p s).
Proof.
  intros HS; induction s as [|c s IH]; simpl; [constructor|].
  destruct (p c) eqn:E; [destruct (starts_with p s)|]; auto.
Qed.

Lemma sub_runs_id (p : codepoint -> bool) (s : str) :
  Forall (fun c => p c = false) s -> sub_runs p s = s.
Proof.
  induction 1 as [|c s Hc _ IH]; simpl; [reflexivity|].
  rewrite Hc, IH; reflexivity.
Qed.

Lemma starts_with_sub_runs (p : codepoint -> bool) (s : str) :
  starts_with p s = false -> starts_with p (sub_runs p s) = false.
Proof.
  destruct s as [|c s]; simpl; [reflexivity|].
  intros H; rewrite H; simpl; exact H.
Qed.

Lemma sub_runs_single_spaced (s : str) : single_spaced (sub_runs isspace s).
Proof.
  induction s as [|c s IH]; simpl; [exact I|].
  destruct (isspace c) eqn:Ec.
  - destruct (starts_with isspace s) eqn:Es; [exact IH|].
    simpl; split; [|exact IH].
    intros _; split; [reflexivity | apply starts_with_sub_runs, Es].
  - simpl; split; [|exact IH].
    rewrite Ec; discriminate.
Qed.

Lemma single_spaced_sub_runs_id (s : str) :
  single_spaced s -> sub_runs isspace s = s.
Proof.
  induction s as [|c s IH]; simpl; [reflexivity|].
  intros [Hc Hs]; rewrite (IH Hs).
  destruct (isspace c) eqn:Ec; [|reflexivity].
  destruct (Hc eq_refl) as [-> ->]; reflexivity.
Qed.

Lemma lstrip_single_spaced (s : str) : single_spaced s -> single_spaced (lstrip s).
Proof.
  induction s as [|c s IH]; simpl; [auto|].
  intros [Hc Hs]; destruct (isspace c) eqn:E; [apply IH, Hs|].
  simpl; split; [rewrite E; discriminate | exact Hs].
Qed.

Lemma starts_with_rstrip (p : codepoint -> bool) (s : str) :
  starts_with p s = false -> starts_with p (rstrip s) = false.
Proof.
  destruct s as [|c s]; simpl; [reflexivity|].
  intros H; destruct (rstrip s); [destruct (isspace c)|]; simpl; auto.
Qed.

Lemma rstrip_single_spaced (s : str) : single_spaced s -> single_spaced (rstrip s).
Proof.
  induction s as [|c s IH]; simpl; [auto|].
  intros [Hc Hs]; specialize (IH Hs).
  destruct (rstrip s) as [|d r] eqn:E.
  - destruct (isspace c) eqn:Ec; simpl; [exact I|].
    split; [rewrite Ec; discriminate | exact I].
  - simpl; split; [|exact IH].
    intros H; destruct (Hc H) as [-> Hn]; split; [reflexivity|].
    apply (starts_with_rstrip isspace) in Hn; rewrite E in Hn; exact Hn.
Qed.

Lemma starts_with_lstrip (s : str) : starts_with isspace (lstrip s) = false.
Proof.
  induction s as [|c s IH]; simpl; [reflexivity|].
  destruct (isspace c) eqn:E; [exact IH | simpl; exact E].
Qed.

Lemma lstrip_id (s : str) : starts_with isspace s = false -> lstrip s = s.
Proof. destruct s as [|c s]; simpl; [reflexivity|]; intros ->; reflexivity. Qed.

Lemma rstrip_idem (s : str) : rstrip (rstrip s) = rstrip s.
Proof.
  induction s as [|c s IH]; simpl; [reflexivity|].
  destruct (rstrip s) as [|d r] eqn:E.
  - destruct (isspace c) eqn:Ec; simpl; [reflexivity | rewrite Ec; reflexivity].
  - change (rstrip (c :: d :: r)) with
      (match rstrip (d :: r) with
       | [] => if isspace c then [] else [c]
       | x :: l => c :: x :: l
       end).
    rewrite IH; reflexivity.
Qed.

Lemma strip_idem (s : str) : strip (strip s) = strip s.
Proof.
  unfold strip.
  rewrite (lstrip_id (rstrip (lstrip s))).
  - apply rstrip_idem.
  - apply starts_with_rstrip, starts_with_lstrip.
Qed.

(** The text before transliteration is a fixed point of the three
    cleaning steps. *)
Lemma clean_fixed (s : str) :
  let t := strip (sub_runs isspace (sub_runs punc (map ascii_lower s))) in
  map ascii_lower t = t
  /\ sub_runs punc t = t
  /\ strip (sub_runs isspace t) = t.
Proof.
  intros t; subst t; repeat split.
  - apply map_lower_id, strip_Forall, sub_runs_Forall; [reflexivity|].
    apply sub_runs_Forall; [reflexivity|].
    apply Forall_map, Forall_forall; intros c _; apply ascii_lower_lowered.
  - apply sub_runs_id, strip_Forall, sub_runs_Forall; [reflexivity|].
    apply sub_runs_clears; reflexivity.
  - rewrite single_spaced_sub_runs_id; [apply strip_idem|].
    apply rstrip_single_spaced, lstrip_single_spaced, sub_runs_single_spaced.
Qed.

(** C4 (amended): [normalize(normalize(x)) == normalize(x)] for [None] and
    for every ASCII text [x]: there the transliteration changes nothing,
    and the cleaned text is a fixed point of the cleaning steps.  For other
    text the transliteration runs last and what it emits is not cleaned. *)
Theorem normalize_idempotent_ascii (U : Unicode) (txt : option str) :
  lower_on_ascii U ->
  match txt with Some s => Forall is_ascii s | None => True end ->
  normalize (Some (normalize txt)) = normalize txt.
Proof.
  intros HL Ha.
  destruct txt as [[|c0 s0]|]; try reflexivity.
  remember (c0 :: s0) as s eqn:Es.
  unfold str in *.
  assert (Hn : normalize (Some s)
               = strip (sub_runs isspace (sub_runs punc (map ascii_lower s)))).
  { assert (Hascii : Forall is_ascii
              (strip (sub_runs isspace (sub_runs punc (map ascii_lower s))))).
    { apply strip_Forall.
      apply sub_runs_Forall; [reflexivity|].
      apply sub_runs_Forall; [reflexivity|].
      apply Forall_map; revert Ha; apply Forall_impl, ascii_lower_ascii. }
    subst s; simpl; rewrite (HL _ Ha).
    apply unidecode_ascii_id, Hascii. }
  rewrite Hn.
  destruct (clean_fixed s) as (H1 & H2 & H3).
  set (t := strip (sub_runs isspace (sub_runs punc (map ascii_lower s)))) in *.
  assert (Hta : Forall is_ascii t).
  { subst t; apply strip_Forall.
    apply sub_runs_Forall; [reflexivity|].
    apply sub_runs_Forall; [reflexivity|].
    apply Forall_map; revert Ha; apply Forall_impl, ascii_lower_ascii. }
  destruct t as [|c t'] eqn:Et; [reflexivity|].
  simpl; rewrite (HL _ Hta), H1, H2, H3.
  apply unidecode_ascii_id, Hta.
Qed.

Lemma normalize_idempotent_ascii_witness :
  normalize (U := unicode_excerpt)
    (Some (normalize (U := unicode_excerpt) (Some (py " Dr. Dan  O'Neil-Cohen (Work) "))))
  = normalize (U := unicode_excerpt) (Some (py " Dr. Dan  O'Neil-Cohen (Work) ")).
Proof.
  apply (normalize_idempotent_ascii unicode_excerpt
           (Some (py " Dr. Dan  O'Neil-Cohen (Work) "))).
  - exact lower_excerpt_ascii.
  - repeat constructor.
Defined.

(** ** Fuzzy Jaccard *)

Lemma find_filter {A : Type} (p q : A -> bool) (l : list A) :
  find p (filter q l) = find (fun x => q x && p x) l.
Proof.
  induction l as [|x l IH]; simpl; [reflexivity|].
  destruct (q x); simpl; [destruct (p x)|]; auto.
Qed.

Lemma filter_comp {A : Type} (f g : A -> bool) (l : list A) :
  filter f (filter g l) = filter (fun x => g x && f x) l.
Proof.
  induction l as [|x l IH]; simpl; [reflexivity|].
  destruct (g x); simpl; [destruct (f x)|]; rewrite IH; reflexivity.
Qed.

Lemma find_filter_irrelevant {A : Type} (r s : A -> bool) (l : list A) :
  (forall y, r y = true -> s y = true) ->
  find r (filter s l) = find r l.
Proof.
  intros H; induction l as [|x l IH]; simpl; [reflexivity|].
  destruct (r x) eqn:Er.
  - rewrite (H _ Er); simpl; rewrite Er; reflexivity.
  - destruct (s x); simpl; [rewrite Er|]; exact IH.
Qed.

Lemma find_dedup (r : str -> bool) (l : list str) :
  find r (dedup l) = find r l.
Proof.
  induction l as [|x l IH]; simpl; [reflexivity|].
  destruct (r x) eqn:Er; [reflexivity|].
  rewrite find_filter_irrelevant; [exact IH|].
  intros y Hy; destruct (str_eqb x y) eqn:E; [|reflexivity].
  apply str_eqb_eq in E; subst y; congruence.
Qed.

Lemma dedup_NoDup (l : list str) : NoDup (dedup l).
Proof.
  induction l as [|x l IH]; simpl; constructor.
  - intros H; apply filter_In in H; destruct H as [_ H].
    rewrite str_eqb_refl in H; discriminate.
  - apply NoDup_filter, IH.
Qed.

Lemma NoDup_dedup (l : list str) : NoDup l -> dedup l = l.
Proof.
  induction 1 as [|x l Hx Hl IH]; simpl; [reflexivity|].
  rewrite IH; f_equal.
  apply forallb_filter_id, forallb_forall.
  intros y Hy; rewrite str_eqb_neq; [reflexivity|].
  intros ->; contradiction.
Qed.

Lemma dedup_nil (l : list str) : dedup l = [] -> l = [].
Proof. destruct l; simpl; [reflexivity | discriminate]. Qed.

Lemma remove_first_NoDup (c : str) (l : list str) :
  NoDup l -> remove_first c l = filter (fun y => negb (str_eqb c y)) l.
Proof.
  induction 1 as [|x l Hx Hl IH]; simpl; [reflexivity|].
  destruct (str_eqb c x) eqn:E; simpl.
  - apply str_eqb_eq in E; subst x.
    symmetry; apply forallb_filter_id, forallb_forall.
    intros y Hy; rewrite str_eqb_neq; [reflexivity|].
    intros ->; contradiction.
  - rewrite IH; reflexivity.
Qed.

Lemma remove_first_length (c : str) (l : list str) :
  In c l -> S (length (remove_first c l)) = length l.
Proof.
  induction l as [|x l IH]; simpl; [contradiction|].
  intros H; destruct (str_eqb c x) eqn:E; [reflexivity|].
  destruct H as [-> | H]; [rewrite str_eqb_refl in E; discriminate|].
  simpl; rewrite (IH H); reflexivity.
Qed.

Section Jaccard.
Context {F : RapidFuzz}.

Lemma first_match_find (g : str) (cs used : list str) :
  first_match g cs used = find (_fuzzy_eq g) (filter (unused used) (dedup cs)).
Proof.
  rewrite find_filter, find_dedup.
  induction cs as [|c cs IH]; simpl; [reflexivity|].
  unfold unused at 1; destruct (mem c used); simpl; [exact IH|].
  destruct (_fuzzy_eq g c); [reflexivity | exact IH].
Qed.

Lemma unused_cons (c : str) (used : list str) (x : str) :
  unused (c :: used) x = unused used x && negb (str_eqb c x).
Proof.
  unfold unused, mem; simpl; rewrite (str_eqb_sym x c).
  destruct (str_eqb c x), (existsb (str_eqb x) used); reflexivity.
Qed.

Lemma unused_consume (c : str) (cs used : list str) :
  remove_first c (filter (unused used) (dedup cs))
  = filter (unused (c :: used)) (dedup cs).
Proof.
  rewrite remove_first_NoDup by apply NoDup_filter, dedup_NoDup.
  rewrite filter_comp; apply filter_ext.
  intros x; symmetry; apply unused_cons.
Qed.

Lemma match_loop_greedy (gs cs : list str) (matched : nat) (used : list str) :
  fst (match_loop gs cs matched used)
  = (matched + greedy_matches gs (filter (unused used) (dedup cs)))%nat.
Proof.
  revert matched used; induction gs as [|g gs IH]; intros matched used; simpl.
  - lia.
  - rewrite first_match_find.
    destruct (find (_fuzzy_eq g) (filter (unused used) (dedup cs))) as [c|].
    + rewrite IH, unused_consume; lia.
    + apply IH.
Qed.

Lemma greedy_matches_bound (gs avail : list str) :
  (greedy_matches gs avail <= length avail)%nat.
Proof.
  revert avail; induction gs as [|g gs IH]; intros avail; simpl; [lia|].
  destruct (find (_fuzzy_eq g) avail) as [c|] eqn:E; [|apply IH].
  apply find_some in E; destruct E as [Hin _].
  specialize (IH (remove_first c avail)).
  rewrite <- (remove_first_length c avail Hin); lia.
Qed.

Lemma unused_nil (l : list str) : filter (unused []) l = l.
Proof. apply forallb_filter_id, forallb_forall; reflexivity. Qed.

Lemma greedy_matches_le_guests (gs avail : list str) :
  (greedy_matches gs avail <= length gs)%nat.
Proof.
  revert avail; induction gs as [|g gs IH]; intros avail; simpl; [lia|].
  destruct (find (_fuzzy_eq g) avail).
  - specialize (IH (remove_first s avail)); lia.
  - specialize (IH avail); lia.
Qed.

(** C5 (amended): when no guest token is repeated, the signal is the
    greedy match count over the contact's distinct token values (a
    value, once consumed, is skipped wherever it occurs again), divided
    by [|G| + |set(C)| - matches]; the match count is at most [|G|] and
    at most [|set(C)|], so it never exceeds the union; the default 1.0
    is taken exactly when both sides are empty; and when the contact
    repeats no token either, this is the specification's formula over
    [|G| + |C| - matches]. *)
Theorem fuzzy_jaccard_distinct (gs cs : list str) :
  NoDup gs ->
  let m := greedy_matches gs (dedup cs) in
  let union :=
    Z.of_nat (length gs) + Z.of_nat (length (dedup cs)) - Z.of_nat m in
  _fuzzy_jaccard gs cs = jaccard_of m (length gs) (length (dedup cs))
  /\ (m <= length gs)%nat
  /\ (m <= length (dedup cs))%nat
  /\ (union = 0 <-> gs = [] /\ cs = [])
  /\ (NoDup cs -> _fuzzy_jaccard gs cs = fuzzy_jaccard_spec gs cs).
Proof.
  intros Hg m union.
  assert (Hm : fst (match_loop gs cs 0 []) = m).
  { rewrite match_loop_greedy, unused_nil; reflexivity. }
  assert (Hb : (m <= length (dedup cs))%nat) by apply greedy_matches_bound.
  assert (Hb' : (m <= length gs)%nat) by apply greedy_matches_le_guests.
  assert (He : _fuzzy_jaccard gs cs
               = jaccard_of m (length gs) (length (dedup cs))).
  { unfold _fuzzy_jaccard, jaccard_of; rewrite Hm, (NoDup_dedup gs Hg).
    reflexivity. }
  split; [exact He|]; split; [exact Hb'|]; split; [exact Hb|]; split.
  - subst union; split.
    + intros H.
      assert (Hg0 : gs = [])
        by (destruct gs; [reflexivity | cbn [length] in H; lia]).
      split; [exact Hg0|].
      subst gs; subst m; cbn [length greedy_matches] in H.
      apply dedup_nil; destruct (dedup cs); [reflexivity|].
      cbn [length] in H; lia.
    + intros [-> ->]; subst m; reflexivity.
  - intros Hc; rewrite He; subst m; unfold fuzzy_jaccard_spec.
    rewrite (NoDup_dedup cs Hc); reflexivity.
Qed.
End Jaccard.

(** C5 (counterexample): the guest token ["dan"] against the contact
    tokens ["dan"; "dan"].  One match; the code divides by 1 + 1 - 1 = 1
    and returns 1.0, the specification's formula divides by
    1 + 2 - 1 = 2 and gives 0.5.  The repetition on the guest's side,
    ["dan"; "dan"] against ["dan"], gives the same two values. *)
Lemma fuzzy_jaccard_counts_distinct :
  (_fuzzy_jaccard (F := rapidfuzz_model) [py "dan"] [py "dan"; py "dan"] = 1%float
   /\ fuzzy_jaccard_spec (F := rapidfuzz_model) [py "dan"] [py "dan"; py "dan"]
      = 0.5%float)
  /\ _fuzzy_jaccard (F := rapidfuzz_model) [py "dan"; py "dan"] [py "dan"] = 1%float
  /\ fuzzy_jaccard_spec (F := rapidfuzz_model) [py "dan"; py "dan"] [py "dan"]
     = 0.5%float.
Proof. repeat split; vm_compute; reflexivity. Qed.

(** ** Floats: the order of the score column *)

Lemma SFcompare_antisym (x y : spec_float) :
  SFcompare y x = option_map CompOpp (SFcompare x y).
Proof.
  destruct x as [sx|sx| |sx mx ex], y as [sy|sy| |sy my ey]; simpl;
    try reflexivity;
    try (destruct sx; reflexivity);
    try (destruct sy; reflexivity);
    try (destruct sx, sy; reflexivity).
  rewrite (Z.compare_antisym ex ey).
  change (Pos.compare_cont Eq my mx) with (Pos.compare_cont (CompOpp Eq) my mx).
  rewrite <- (Pos.compare_cont_antisym mx my Eq).
  destruct sx, sy; try reflexivity;
    destruct (ex ?= ey); simpl; try reflexivity;
    destruct (Pos.compare_cont Eq mx my); reflexivity.
Qed.

Lemma SFcompare_refl (x : spec_float) :
  x <> S754_nan -> SFcompare x x = Some Eq.
Proof.
  destruct x as [s|s| |s m e]; simpl; intros H; try reflexivity.
  - destruct s; reflexivity.
  - congruence.
  - rewrite Z.compare_refl, Pos.compare_cont_refl; destruct s; reflexivity.
Qed.

Lemma SFcompare_None (x y : spec_float) :
  SFcompare x y = None -> x = S754_nan \/ y = S754_nan.
Proof.
  destruct x as [sx|sx| |sx mx ex], y as [sy|sy| |sy my ey]; simpl;
    try discriminate; auto.
Qed.

Lemma leb_not_nan (a b : float) :
  (a <=? b)%float = true -> Prim2SF b <> S754_nan.
Proof.
  rewrite FloatAxioms.leb_spec; unfold SFleb; intros H E; rewrite E in H.
  destruct (Prim2SF a); discriminate.
Qed.

Lemma finite_not_nan (f : float) : finite f = true -> Prim2SF f <> S754_nan.
Proof. unfold finite; intros H E; rewrite E in H; discriminate. Qed.

Lemma not_nan_is_nan (f : float) : Prim2SF f <> S754_nan -> is_nan f = false.
Proof.
  intros H; unfold is_nan; rewrite FloatAxioms.eqb_spec; unfold SFeqb.
  rewrite (SFcompare_refl _ H); reflexivity.
Qed.

Lemma str_leb_total (a b : str) : str_leb a b = true \/ str_leb b a = true.
Proof.
  revert b; induction a as [|x a IH]; destruct b as [|y b]; simpl; auto.
  destruct (N.ltb_spec x y), (N.ltb_spec y x); auto; try lia.
  assert (x = y) by lia; subst y.
  rewrite N.eqb_refl; apply IH.
Qed.

Lemma before_total (a b : scored) :
  Prim2SF (score_of a) <> S754_nan -> Prim2SF (score_of b) <> S754_nan ->
  before a b = true \/ before b a = true.
Proof.
  intros Ha Hb; unfold before.
  rewrite !FloatAxioms.ltb_spec, !FloatAxioms.eqb_spec; unfold SFltb, SFeqb.
  rewrite (SFcompare_antisym (Prim2SF (score_of a)) (Prim2SF (score_of b))).
  destruct (SFcompare (Prim2SF (score_of a)) (Prim2SF (score_of b)))
    as [[| |]|] eqn:E; simpl; auto.
  - destruct (str_leb_total (full_name (fst a)) (full_name (fst b))) as [H | H];
      rewrite H; auto.
  - apply SFcompare_None in E; tauto.
Qed.

(** ** pandas: sorting and the maximum *)

Lemma insert_perm (x : scored) (l : list scored) : Permutation (insert x l) (x :: l).
Proof.
  induction l as [|y l IH]; simpl; [reflexivity|].
  destruct (before x y); [reflexivity|].
  rewrite IH; apply perm_swap.
Qed.

Lemma sort_values_perm (l : list scored) : Permutation (sort_values l) l.
Proof.
  induction l as [|x l IH]; simpl; [reflexivity|].
  rewrite insert_perm, IH; reflexivity.
Qed.

Lemma insert_HdRel (x y : scored) (l : list scored) :
  before y x = true ->
  HdRel (fun a b => before a b = true) y l ->
  HdRel (fun a b => before a b = true) y (insert x l).
Proof.
  intros Hyx H; destruct l as [|z l]; simpl; [constructor; exact Hyx|].
  destruct (before x z); constructor; [exact Hyx|].
  inversion H; assumption.
Qed.

Lemma insert_ranked (x : scored) (l : list scored) :
  not_nan x -> Forall not_nan l -> ranked l -> ranked (insert x l).
Proof.
  unfold ranked; intros Hx Hl Hs.
  induction l as [|y l IH]; simpl; [repeat constructor|].
  inversion Hl as [|? ? Hy Hl']; subst.
  apply Sorted_inv in Hs; destruct Hs as [Hs Hd].
  destruct (before x y) eqn:E.
  - constructor; [constructor; assumption | constructor; exact E].
  - constructor; [apply IH; assumption|].
    apply insert_HdRel; [|exact Hd].
    destruct (before_total x y Hx Hy) as [H | H]; [congruence | exact H].
Qed.

Lemma sort_values_ranked (l : list scored) :
  Forall not_nan l -> ranked (sort_values l).
Proof.
  induction 1 as [|x l Hx Hl IH]; simpl; [constructor|].
  apply insert_ranked; [exact Hx | | exact IH].
  apply (Permutation_Forall (Permutation_sym (sort_values_perm l))), Hl.
Qed.

Lemma firstn_ranked (n : nat) (l : list scored) : ranked l -> ranked (firstn n l).
Proof.
  unfold ranked; revert l; induction n as [|n IH]; intros l H; simpl;
    [constructor|].
  destruct l as [|x l]; [constructor|].
  apply Sorted_inv in H; destruct H as [Hs Hd].
  constructor; [apply IH, Hs|].
  destruct n; simpl; [constructor|].
  destruct l; [constructor|]; constructor; inversion Hd; assumption.
Qed.

Lemma score_ge_not_nan (th : Z) (r : scored) : score_ge th r = true -> not_nan r.
Proof. unfold score_ge, not_nan; apply leb_not_nan. Qed.

Lemma filter_score_ge (th : Z) (df : list scored) :
  Forall (fun r => score_ge th r = true) (filter (score_ge th) df).
Proof. apply Forall_forall; intros r H; apply filter_In in H; tauto. Qed.

Lemma shortlist_spec (th : Z) (df : list scored) :
  exists all,
    Permutation all (filter (score_ge th) df)
    /\ ranked all
    /\ shortlist th df = firstn 3 all.
Proof.
  exists (sort_values (filter (score_ge th) df)); repeat split.
  - apply sort_values_perm.
  - apply sort_values_ranked.
    eapply Forall_impl; [|apply filter_score_ge].
    intros r; apply score_ge_not_nan.
Qed.

Lemma firstn_incl {A : Type} (n : nat) (l : list A) : incl (firstn n l) l.
Proof.
  intros x H; rewrite <- (firstn_skipn n l); apply in_or_app; left; exact H.
Qed.

Lemma shortlist_in_tier (th : Z) (df : list scored) :
  in_tier th df (shortlist th df) /\ ranked (shortlist th df).
Proof.
  destruct (shortlist_spec th df) as (all & Hp & Hr & ->).
  assert (Hin : forall r, In r all <-> In r (filter (score_ge th) df)).
  { intros r; split; apply Permutation_in; [|symmetry]; exact Hp. }
  split; [repeat split|].
  - apply Forall_forall; intros r H.
    apply firstn_incl, Hin, filter_In in H; tauto.
  - intros r H; apply firstn_incl, Hin, filter_In in H; tauto.
  - intros (r & Hr1 & Hr2) E.
    assert (H : In r all) by (apply Hin, filter_In; auto).
    destruct all; [contradiction | discriminate].
  - apply firstn_ranked, Hr.
Qed.

Lemma shortlist_nil (th : Z) (df : list scored) :
  (forall r, In r df -> score_ge th r = false) -> shortlist th df = [].
Proof.
  intros H; unfold shortlist.
  replace (filter (score_ge th) df) with (@nil scored); [reflexivity|].
  symmetry; induction df as [|r df IH]; simpl; [reflexivity|].
  rewrite (H r) by (left; reflexivity).
  apply IH; intros r' Hr'; apply H; right; exact Hr'.
Qed.

Lemma series_max_step_finite (l : list float) (acc : float) :
  finite acc = true -> Forall (fun x => finite x = true) l ->
  finite
    (fold_left
       (fun acc x =>
          if is_nan x then acc
          else if is_nan acc then x
          else if (acc <? x)%float then x else acc)
       l acc) = true.
Proof.
  intros Ha Hl; revert acc Ha; induction Hl as [|x l Hx _ IH]; intros acc Ha;
    simpl; [exact Ha|].
  apply IH.
  destruct (is_nan x); [exact Ha|].
  destruct (is_nan acc); [exact Hx|].
  destruct (acc <? x)%float; assumption.
Qed.

Lemma series_max_finite (l : list float) :
  l <> [] -> Forall (fun x => finite x = true) l -> finite (series_max l) = true.
Proof.
  intros Hne Hl; destruct l as [|x l]; [congruence|].
  inversion Hl as [|? ? Hx Hl']; subst.
  unfold series_max; simpl.
  apply series_max_step_finite; [|exact Hl'].
  rewrite (not_nan_is_nan x (finite_not_nan x Hx)).
  change (is_nan nan) with true; exact Hx.
Qed.

Lemma float_trunc_finite (f : float) :
  finite f = true -> exists z, float_trunc f = Ok z.
Proof.
  unfold finite, float_trunc; destruct (Prim2SF f); try discriminate; eauto.
Qed.

(** ** Candidate selector *)

Lemma mapM_length {A B : Type} (f : A -> res B) (l : list A) (bs : list B) :
  mapM f l = Ok bs -> length bs = length l.
Proof.
  revert bs; induction l as [|a l IH]; simpl; intros bs H.
  - injection H as <-; reflexivity.
  - destruct (f a); simpl in H; [|discriminate].
    destruct (mapM f l); simpl in H; [|discriminate].
    injection H as <-; simpl; rewrite (IH _ eq_refl); reflexivity.
Qed.

Lemma mapM_total {A B : Type} (f : A -> res B) (h : B -> A) (l : list A) :
  (forall a, In a l -> exists b, f a = Ok b /\ h b = a) ->
  exists bs, mapM f l = Ok bs /\ map h bs = l.
Proof.
  induction l as [|a l IH]; intros H; simpl; [exists []; auto|].
  destruct (H a (or_introl eq_refl)) as (b & Hb & Hh).
  destruct IH as (bs & Hbs & Hm); [intros; apply H; right; assumption|].
  exists (b :: bs); rewrite Hb, Hbs; simpl; rewrite Hh, Hm; auto.
Qed.

Lemma tiered_incl (m : Z) (df : list scored) : incl (tiered m df) df.
Proof.
  unfold tiered.
  destruct (m =? AUTO_SCORE); [apply shortlist_in_tier|].
  destruct (shortlist MIN_SCORE_DISPLAY df) eqn:E;
    [|rewrite <- E]; apply shortlist_in_tier.
Qed.

(** The maximum of a non-empty column of finite numbers is one of them. *)
Lemma series_max_step_In (l : list float) (acc : float) :
  In
    (fold_left
       (fun acc x =>
          if is_nan x then acc
          else if is_nan acc then x
          else if (acc <? x)%float then x else acc)
       l acc) (acc :: l).
Proof.
  revert acc; induction l as [|x l IH]; intros acc; simpl; [auto|].
  match goal with |- context [fold_left ?f l ?a] => destruct (IH a) as [H | H] end.
  - rewrite <- H.
    destruct (is_nan x); [auto|].
    destruct (is_nan acc); [auto|].
    destruct (acc <? x)%float; auto.
  - auto.
Qed.

Lemma series_max_In (l : list float) :
  l <> [] -> Forall (fun x => finite x = true) l -> In (series_max l) l.
Proof.
  intros Hne Hl; destruct l as [|x l]; [congruence|].
  inversion Hl as [|? ? Hx Hl']; subst.
  unfold series_max; simpl.
  rewrite (not_nan_is_nan x (finite_not_nan x Hx)).
  change (is_nan nan) with true; cbv iota.
  apply series_max_step_In.
Qed.

(** ** Floats: a maximum that truncates to 100 is at least 90 *)

Lemma digits2_pos_bounds (m : positive) :
  2 ^ (Zpos (digits2_pos m) - 1) <= Zpos m < 2 ^ Zpos (digits2_pos m).
Proof.
  induction m as [m IH | m IH |]; simpl digits2_pos.
  - rewrite Pos2Z.inj_succ.
    replace (Z.succ (Z.pos (digits2_pos m)) - 1)
      with (Z.succ (Z.pos (digits2_pos m) - 1)) by lia.
    rewrite !Z.pow_succ_r by lia; lia.
  - rewrite Pos2Z.inj_succ.
    replace (Z.succ (Z.pos (digits2_pos m)) - 1)
      with (Z.succ (Z.pos (digits2_pos m) - 1)) by lia.
    rewrite !Z.pow_succ_r by lia; lia.
  - simpl; lia.
Qed.

Lemma trunc_100_ge_90 (f : float) :
  float_trunc f = Ok 100 -> (float_of_Z 90 <=? f)%float = true.
Proof.
  unfold float_trunc; intros H.
  pose proof (Prim2SF_valid f) as V.
  rewrite FloatAxioms.leb_spec.
  destruct (Prim2SF f) as [s|s| |s m e]; try discriminate.
  assert (H' : signed s (if 0 <=? e then Z.pos m * 2 ^ e
                        else Z.pos m / 2 ^ (- e)) = 100)
    by (injection H as H; exact H).
  clear H; rename H' into H.
  unfold SpecFloat.valid_binary, bounded, canonical_mantissa, fexp, emin in V.
  apply andb_true_iff in V; destruct V as [V _]; apply Z.eqb_eq in V.
  change prec with 53 in V; change emax with 1024 in V.
  pose proof (digits2_pos_bounds m) as D.
  set (d := Z.pos (digits2_pos m)) in *.
  assert (Hd : d <= 53) by lia.
  assert (Hm53 : Z.pos m < 2 ^ 53).
  { apply Z.lt_le_trans with (2 ^ d); [lia|].
    apply Z.pow_le_mono_r; lia. }
  destruct (Z.leb_spec 0 e) as [He | He].
  - (* an integer mantissa of 53 bits times 2^e is not 100 *)
    exfalso.
    assert (d = 53) by lia; subst d.
    assert (1 <= 2 ^ e) by (apply (Z.pow_le_mono_r 2 0 e); lia).
    replace (Z.pos (digits2_pos m) - 1) with 52 in D by lia.
    change (2 ^ 52) with 4503599627370496 in D.
    assert (Z.pos m * 1 <= Z.pos m * 2 ^ e)
      by (apply Z.mul_le_mono_nonneg_l; lia).
    unfold signed in H; destruct s; lia.
  - set (k := - e) in *.
    assert (Hk : 0 < k) by lia.
    assert (Hp : 0 < 2 ^ k) by (apply Z.pow_pos_nonneg; lia).
    pose proof (Z.div_mod (Z.pos m) (2 ^ k) ltac:(lia)) as Hdm.
    pose proof (Z.mod_pos_bound (Z.pos m) (2 ^ k) Hp) as Hmod.
    assert (Hq : Z.pos m / 2 ^ k = 100).
    { unfold signed in H; destruct s; [|exact H].
      pose proof (Z.div_pos (Z.pos m) (2 ^ k) ltac:(lia) Hp); lia. }
    assert (Hs : s = false).
    { unfold signed in H; destruct s; [|reflexivity].
      pose proof (Z.div_pos (Z.pos m) (2 ^ k) ltac:(lia) Hp); lia. }
    subst s; rewrite Hq in Hdm.
    change (2 ^ 53) with 9007199254740992 in Hm53.
    assert (Hk46 : k <= 46).
    { destruct (Z.le_gt_cases k 46) as [|Hgt]; [assumption|exfalso].
      assert (2 ^ 47 <= 2 ^ k) by (apply Z.pow_le_mono_r; lia).
      change (2 ^ 47) with 140737488355328 in *; lia. }
    assert (d = 53) by lia.
    replace (d - 1) with 52 in D by lia.
    change (2 ^ 52) with 4503599627370496 in D.
    assert (Hk46' : 46 <= k).
    { destruct (Z.le_gt_cases 46 k) as [|Hlt]; [assumption|exfalso].
      assert (2 ^ k <= 2 ^ 45) by (apply Z.pow_le_mono_r; lia).
      change (2 ^ 45) with 35184372088832 in *; lia. }
    assert (Hk' : k = 46) by lia.
    assert (He' : e = -46) by lia.
    rewrite Hk' in Hdm; change (2 ^ 46) with 70368744177664 in Hdm.
    rewrite Hk' in Hmod; change (2 ^ 46) with 70368744177664 in Hmod.
    subst e.
    assert (E90 : Prim2SF (float_of_Z 90) = S754_finite false 6333186975989760 (-46))
      by (vm_compute; reflexivity).
    rewrite E90; unfold SFleb, SFcompare.
    change (-46 ?= -46) with Eq; cbv iota.
    change (Pos.compare_cont Eq 6333186975989760 m)
      with (Pos.compare 6333186975989760 m).
    assert (Hlt : (6333186975989760 < m)%positive) by lia.
    rewrite Hlt; reflexivity.
Qed.

Lemma in_combine_r_exists {A B : Type} (l : list A) (l' : list B) (b : B) :
  length l = length l' -> In b l' -> exists a, In (a, b) (combine l l').
Proof.
  revert l'; induction l as [|a l IH]; intros [|b' l'] Hlen Hin;
    simpl in *; try contradiction; try discriminate.
  destruct Hin as [-> | Hin]; [eauto|].
  destruct (IH l' ltac:(lia) Hin) as [a' Ha']; eauto.
Qed.

Section Returns.
Context {F : RapidFuzz}.

(** A table whose truncated maximum is 100 has a row scoring >= 90. *)
Lemma perfect_match_row (contacts_df : list row) (scores : list pynum) :
  length scores = length contacts_df ->
  scores <> [] ->
  Forall (fun s => finite (to_float s) = true) scores ->
  float_trunc (series_max (map to_float scores)) = Ok 100 ->
  exists r, In r (combine contacts_df scores) /\ score_ge 90 r = true.
Proof.
  intros Hlen Hne Hfin Hm.
  assert (Hin : In (series_max (map to_float scores)) (map to_float scores)).
  { apply series_max_In; [|apply Forall_map; exact Hfin].
    destruct scores; [congruence | discriminate]. }
  apply in_map_iff in Hin; destruct Hin as (s & Hs & Hin).
  destruct (in_combine_r_exists contacts_df scores s (eq_sym Hlen) Hin) as [c Hc].
  exists (c, s); split; [exact Hc|].
  unfold score_ge, score_of; simpl; rewrite Hs.
  apply trunc_100_ge_90, Hm.
Qed.

(** With a non-empty guest name, no score that is [nan] or infinite, and
    a contact scoring at least 50, [top_matches] returns: the rows of
    the chosen tier, each with its reason. *)
Lemma top_matches_run (g : str) (contacts_df : list row) (scores : list pynum) :
  g <> [] ->
  score_column g contacts_df = Ok scores ->
  forallb (fun s => finite (to_float s)) scores = true ->
  (exists r, In r (combine contacts_df scores) /\ score_ge 50 r = true) ->
  exists rows m,
    top_matches g contacts_df = Ok rows
    /\ float_trunc (series_max (map to_float scores)) = Ok m
    /\ map unreason rows = tiered m (combine contacts_df scores)
    /\ rows <> [].
Proof.
  intros Hg Hs Hf Hex.
  apply nonempty_true in Hg.
  assert (Hfin : Forall (fun s => finite (to_float s) = true) scores)
    by (apply Forall_forall, forallb_forall; exact Hf).
  assert (Hlen : length scores = length contacts_df)
    by (apply mapM_length in Hs; exact Hs).
  assert (Hne : scores <> []).
  { destruct Hex as ([c s] & Hin & _); apply in_combine_r in Hin.
    intros ->; contradiction. }
  destruct (float_trunc_finite (series_max (map to_float scores))) as [m Hm].
  { apply series_max_finite; [|apply Forall_map; exact Hfin].
    destruct scores; [congruence | discriminate]. }
  set (df := combine contacts_df scores) in *.
  assert (Hcand : tiered m df <> []).
  { unfold tiered; destruct (Z.eqb_spec m AUTO_SCORE) as [-> | Hm100].
    - apply shortlist_in_tier.
      apply (perfect_match_row contacts_df scores Hlen Hne Hfin Hm).
    - destruct (shortlist MIN_SCORE_DISPLAY df) eqn:E; [|discriminate].
      apply shortlist_in_tier, Hex. }
  destruct (mapM_total (with_reason g) unreason (tiered m df))
    as (rows & Hr & Hu).
  { intros [c s] Hin; apply tiered_incl, in_combine_r in Hin.
    assert (Hs' : finite (to_float s) = true)
      by (rewrite Forall_forall in Hfin; apply Hfin, Hin).
    assert (Hz : exists z, py_int s = Ok z).
    { destruct s; simpl in *; [eauto | apply float_trunc_finite, Hs']. }
    destruct Hz as [z Hz]; unfold with_reason; simpl; rewrite Hz; simpl.
    eexists; split; reflexivity. }
  exists rows, m; unfold top_matches.
  rewrite Hg, Hs; simpl; rewrite Hm; simpl; fold df.
  repeat split; try assumption.
  - unfold attach_reason; destruct (tiered m df); [congruence | exact Hr].
  - intros ->; simpl in Hu; congruence.
Qed.

End Returns.

(** The fallback tier at work: the best score is 65, no contact reaches
    70, and the contact scoring 65 is returned. *)
Lemma top_matches_fallback_example :
  map unreason
    match top_matches (F := rapidfuzz_model) (py "yossi cohen") two_contacts with
    | Ok rows => rows
    | Raise _ => []
    end
  = [ (row_of "Yossi Levy" "yossi levy", PyInt 65) ].
Proof. vm_compute; reflexivity. Qed.

(** C2 (counterexample): four contacts are spelled like the guest, all four
    score 100 and qualify under the threshold 90, and [top_matches]
    returns three of them. *)
Lemma top_matches_caps_at_three :
  score_column (F := rapidfuzz_model) (py "dan cohen") four_contacts
    = Ok [PyInt 100; PyInt 100; PyInt 100; PyInt 100]
  /\ length (filter (score_ge 90)
               (combine four_contacts [PyInt 100; PyInt 100; PyInt 100; PyInt 100]))
     = 4%nat
  /\ exists rows,
       top_matches (F := rapidfuzz_model) (py "dan cohen") four_contacts = Ok rows
       /\ length rows = 3%nat.
Proof.
  split; [vm_compute; reflexivity|].
  split; [vm_compute; reflexivity|].
  eexists; split; [vm_compute; reflexivity | reflexivity].
Qed.

(** Token sequences without repetition: the code and the specification's
    formula agree. *)
Lemma fuzzy_jaccard_distinct_witness :
  _fuzzy_jaccard (F := rapidfuzz_model) [py "dan"; py "cohen"] [py "dan"; py "levy"]
  = fuzzy_jaccard_spec (F := rapidfuzz_model)
      [py "dan"; py "cohen"] [py "dan"; py "levy"].
Proof.
  destruct (fuzzy_jaccard_distinct (F := rapidfuzz_model)
              [py "dan"; py "cohen"] [py "dan"; py "levy"])
    as (_ & _ & _ & _ & H).
  - repeat constructor; vm_compute; intuition discriminate.
  - apply H; repeat constructor; vm_compute; intuition discriminate.
Defined.


(** ** Phone numbers *)

Lemma filter_id_forallb {A : Type} (p : A -> bool) (l : list A) :
  forallb p l = true -> filter p l = l.
Proof. apply forallb_filter_id. Qed.

Lemma forallb_filter_self {A : Type} (p : A -> bool) (l : list A) :
  forallb p (filter p l) = true.
Proof.
  apply forallb_forall; intros x H; apply filter_In in H; tauto.
Qed.

Lemma forallb_firstn {A : Type} (p : A -> bool) (n : nat) (l : list A) :
  forallb p l = true -> forallb p (firstn n l) = true.
Proof.
  rewrite !forallb_forall; intros H x Hx; apply H, (firstn_incl n l), Hx.
Qed.

Lemma forallb_skipn {A : Type} (p : A -> bool) (n : nat) (l : list A) :
  forallb p l = true -> forallb p (skipn n l) = true.
Proof.
  rewrite !forallb_forall; intros H x Hx; apply H.
  rewrite <- (firstn_skipn n l); apply in_or_app; right; exact Hx.
Qed.

Lemma filter_dashed {A : Type} (p : A -> bool) (n : nat) (h : A) (d : list A) :
  forallb p d = true -> p h = false ->
  filter p (firstn n d ++ [h] ++ skipn n d) = d.
Proof.
  intros Hd Hh; rewrite !filter_app; simpl; rewrite Hh; simpl.
  rewrite (filter_id_forallb p (firstn n d)) by (apply forallb_firstn, Hd).
  rewrite (filter_id_forallb p (skipn n d)) by (apply forallb_skipn, Hd).
  apply firstn_skipn.
Qed.

Lemma local_digits_fixed (d : str) : local_digits (local_digits d) = local_digits d.
Proof.
  unfold local_digits at 2 3.
  destruct (startswith (py "972") d) eqn:E; [reflexivity|].
  unfold local_digits; rewrite E; reflexivity.
Qed.

Lemma local_digits_forallb (p : codepoint -> bool) (d : str) :
  p ZERO = true -> forallb p d = true -> forallb p (local_digits d) = true.
Proof.
  intros Hz Hd; unfold local_digits.
  destruct (startswith (py "972") d); [|exact Hd].
  change (forallb p (ZERO :: skipn 3 d)) with (p ZERO && forallb p (skipn 3 d)).
  rewrite Hz; exact (forallb_skipn p 3 d Hd).
Qed.

Section PhoneFacts.
Context {D : Digits}.
Hypothesis HD : digits_on_ascii D.

Lemma isdigit_zero : py_isdigit ZERO = true.
Proof. destruct (HD ZERO) as [_ H]; [reflexivity | exact H]. Qed.

Lemma isdigit_hyphen : py_isdigit HYPHEN = false.
Proof. destruct (HD HYPHEN) as [_ H]; [reflexivity | exact H]. Qed.

Lemma re_digit_zero : re_digit ZERO = true.
Proof. destruct (HD ZERO) as [H _]; [reflexivity | exact H]. Qed.

Lemma re_digit_hyphen : re_digit HYPHEN = false.
Proof. destruct (HD HYPHEN) as [H _]; [reflexivity | exact H]. Qed.

Lemma re_digit_newline : re_digit NEWLINE = false.
Proof. destruct (HD NEWLINE) as [H _]; [reflexivity | exact H]. Qed.

Lemma format_phone_eq (ph : str) :
  format_phone ph = dashed (local_digits (filter py_isdigit ph)).
Proof. reflexivity. Qed.

Lemma filter_isdigit_dashed (d : str) :
  forallb py_isdigit d = true -> filter py_isdigit (dashed d) = d.
Proof.
  intros Hd; unfold dashed; destruct (length d =? 10)%nat.
  - apply filter_dashed; [exact Hd | apply isdigit_hyphen].
  - apply filter_id_forallb, Hd.
Qed.

(** X1: formatting a formatted phone changes nothing, whatever the input
    text is. *)
Theorem format_phone_idempotent (ph : str) :
  format_phone (format_phone ph) = format_phone ph.
Proof.
  rewrite (format_phone_eq (format_phone ph)), (format_phone_eq ph).
  rewrite filter_isdigit_dashed.
  - rewrite local_digits_fixed; reflexivity.
  - apply local_digits_forallb; [apply isdigit_zero | apply forallb_filter_self].
Qed.

Lemma local_digits_no_prefix (d : str) :
  startswith (py "972") (local_digits d) = false.
Proof.
  unfold local_digits; destruct (startswith (py "972") d) eqn:E;
    [reflexivity | exact E].
Qed.

(** X2: the result of [format_phone] is either ten digits written
    XXX-XXXXXXX, or digits only and then not ten of them; and it never
    begins with the international prefix 972. *)
Theorem format_phone_shape (ph : str) :
  let r := format_phone ph in
  startswith (py "972") r = false
  /\ ((length r = 11%nat
       /\ nth 3 r ZERO = HYPHEN
       /\ forallb py_isdigit (firstn 3 r ++ skipn 4 r) = true)
      \/ (length r <> 10%nat /\ forallb py_isdigit r = true)).
Proof.
  intros r; subst r; rewrite format_phone_eq.
  set (d := local_digits (filter py_isdigit ph)).
  assert (Hd : forallb py_isdigit d = true)
    by (apply local_digits_forallb; [apply isdigit_zero | apply forallb_filter_self]).
  assert (Hp : startswith (py "972") d = false) by apply local_digits_no_prefix.
  unfold dashed; destruct (Nat.eqb_spec (length d) 10) as [E | E].
  - destruct d as [|a [|b [|c [|d3 [|d4 [|d5 [|d6 [|d7 [|d8 [|d9 [|? ?]]]]]]]]]]];
      try discriminate.
    split; [exact Hp|]; left; repeat split.
    simpl in Hd |- *; exact Hd.
  - split; [exact Hp|]; right; split; assumption.
Qed.

(** X3: a number written with the international prefix and the same number
    written locally are formatted alike: only the digits count, and a
    leading 972 stands for 0. *)
Theorem format_phone_international (a b rest : str) :
  filter py_isdigit a = py "972" ++ rest ->
  filter py_isdigit b = ZERO :: rest ->
  format_phone a = format_phone b.
Proof.
  intros Ha Hb; rewrite !format_phone_eq, Ha, Hb; reflexivity.
Qed.

Lemma filter_digits_ascii (s : str) :
  Forall is_ascii s ->
  filter re_digit s = filter ascii_digit s
  /\ filter py_isdigit s = filter ascii_digit s.
Proof.
  intros H; split; apply filter_ext_in; intros c Hc;
    rewrite Forall_forall in H; apply HD, H, Hc.
Qed.

Lemma match_digits_exact (first : str) (n : nat) (d : str) :
  forallb re_digit d = true ->
  match_digits first n d = true ->
  startswith first d = true /\ length d = (length first + n)%nat.
Proof.
  unfold match_digits; intros Hd H.
  apply andb_true_iff in H; destruct H as [Hs H]; split; [exact Hs|].
  apply andb_true_iff in H; destruct H as [H Hrest].
  apply andb_true_iff in H; destruct H as [Hlen _].
  apply Nat.eqb_eq in Hlen.
  assert (Hr : skipn n (skipn (length first) d) = []).
  { destruct (skipn n (skipn (length first) d)) as [|c [|? ?]] eqn:E;
      [reflexivity | | discriminate].
    apply N.eqb_eq in Hrest; subst c.
    assert (Hin : In NEWLINE d).
    { rewrite <- (firstn_skipn (length first) d); apply in_or_app; right.
      rewrite <- (firstn_skipn n (skipn (length first) d)); apply in_or_app; right.
      rewrite E; left; reflexivity. }
    rewrite forallb_forall in Hd; apply Hd in Hin.
    rewrite re_digit_newline in Hin; discriminate. }
  assert (Hf : (length first <= length d)%nat).
  { clear - Hs; revert d Hs; induction first as [|x f IH]; intros [|y d] Hs;
      simpl in *; try lia; try discriminate.
    apply andb_true_iff in Hs; destruct Hs as [_ Hs]; apply IH in Hs; lia. }
  pose proof (firstn_skipn n (skipn (length first) d)) as Hsplit.
  rewrite Hr, app_nil_r in Hsplit.
  pose proof (length_skipn (length first) d) as Hl.
  rewrite <- Hsplit, Hlen in Hl; lia.
Qed.

(** X4: a number that [normalize_phone_basic] accepts has ten digits, and
    [format_phone] writes exactly them as XXX-XXXXXXX: [only_digits] gives
    them back. *)
Theorem accepted_phone_formats (p d : str) :
  Forall is_ascii p ->
  normalize_phone_basic (Some p) = Some d ->
  length d = 10%nat
  /\ format_phone p = firstn 3 d ++ [HYPHEN] ++ skipn 3 d
  /\ only_digits (Some (format_phone p)) = d.
Proof.
  intros Ha H; unfold normalize_phone_basic, or_empty in H; cbv zeta in H.
  destruct (match_digits (py "0") 9 (filter re_digit p)) eqn:M; [|discriminate].
  injection H as <-.
  destruct (match_digits_exact _ _ _ (forallb_filter_self re_digit p) M)
    as [Hs Hlen].
  simpl in Hlen.
  destruct (filter_digits_ascii p Ha) as [E1 E2].
  assert (Hf : format_phone p
               = firstn 3 (filter re_digit p) ++ [HYPHEN]
                 ++ skipn 3 (filter re_digit p)).
  { rewrite format_phone_eq, E2, <- E1.
    destruct (filter re_digit p) as [|c r]; [discriminate|].
    change (startswith (py "0") (c :: r)) with (N.eqb 48 c && true) in Hs.
    apply andb_true_iff in Hs; destruct Hs as [Hc _].
    apply N.eqb_eq in Hc; subst c.
    change (local_digits (48%N :: r)) with (48%N :: r).
    apply Nat.eqb_eq in Hlen.
    unfold dashed; unfold str, codepoint in *; rewrite Hlen; reflexivity. }
  repeat split; [exact Hlen | exact Hf|].
  unfold only_digits; simpl or_empty; rewrite Hf.
  apply filter_dashed; [apply forallb_filter_self | apply re_digit_hyphen].
Qed.

(** X5: [whatsapp_utils.normalize_phone] and [logic.format_phone] agree on
    the digits of an ASCII text. *)
Theorem format_phone_digits (p : str) :
  Forall is_ascii p ->
  only_digits (Some (format_phone p)) = normalize_phone p.
Proof.
  intros Ha; destruct (filter_digits_ascii p Ha) as [E1 E2].
  unfold only_digits; simpl or_empty.
  rewrite format_phone_eq, E2, <- E1.
  set (d := local_digits (filter re_digit p)).
  assert (Hd : forallb re_digit d = true)
    by (apply local_digits_forallb; [apply re_digit_zero | apply forallb_filter_self]).
  assert (Hf : filter re_digit (dashed d) = d).
  { unfold dashed; destruct (length d =? 10)%nat.
    - apply filter_dashed; [exact Hd | apply re_digit_hyphen].
    - apply filter_id_forallb, Hd. }
  rewrite Hf; subst d; destruct p; reflexivity.
Qed.

Lemma normalize_phone_eq (p : str) :
  normalize_phone p = local_digits (filter re_digit p).
Proof. destruct p; reflexivity. Qed.

(** X6: a phone that [validate_phone] accepts normalizes to ten digits
    beginning with 05, which [normalize_phone] leaves as they are and
    [app.normalize_phone_basic] accepts unchanged. *)
Theorem validated_phone (p : str) :
  validate_phone p = true ->
  let n := normalize_phone p in
  length n = 10%nat
  /\ startswith (py "05") n = true
  /\ normalize_phone n = n
  /\ normalize_phone_basic (Some n) = Some n.
Proof.
  intros V n; subst n; unfold validate_phone in V.
  rewrite normalize_phone_eq in *.
  set (d := local_digits (filter re_digit p)) in *.
  assert (Hd : forallb re_digit d = true)
    by (apply local_digits_forallb; [apply re_digit_zero | apply forallb_filter_self]).
  destruct (match_digits_exact _ _ _ Hd V) as [Hs Hlen]; simpl in Hlen.
  assert (Hfd : filter re_digit d = d) by (apply filter_id_forallb, Hd).
  repeat split; [exact Hlen | exact Hs | |].
  - rewrite normalize_phone_eq, Hfd; apply local_digits_fixed.
  - unfold normalize_phone_basic; simpl or_empty; rewrite Hfd.
    replace (match_digits (py "0") 9 d) with true; [reflexivity|].
    symmetry; unfold match_digits.
    destruct d as [|a [|b [|c [|d3 [|d4 [|d5 [|d6 [|d7 [|d8 [|d9 [|? ?]]]]]]]]]]];
      try discriminate.
    simpl in Hs, Hd |- *.
    apply andb_true_iff in Hs; destruct Hs as [Ha _]; rewrite Ha; simpl.
    apply andb_true_iff in Hd; destruct Hd as [_ Hd].
    repeat (apply andb_true_iff in Hd; destruct Hd as [?Hx Hd]).
    repeat match goal with H : re_digit _ = true |- _ => rewrite H; clear H end.
    reflexivity.
Qed.
End PhoneFacts.

(** ** The options of a guest and the phone read back from a choice *)

Lemma remove_pair_absent (a b : codepoint) (s : str) :
  ~ In a s -> remove_pair a b s = s.
Proof.
  induction s as [|x s IH]; intros H; [reflexivity|].
  destruct s as [|y s']; [reflexivity|].
  change (remove_pair a b (x :: y :: s'))
    with (if N.eqb x a && N.eqb y b then remove_pair a b s'
          else x :: remove_pair a b (y :: s')).
  destruct (N.eqb_spec x a) as [-> | Hx]; [exfalso; apply H; left; reflexivity|].
  simpl andb; cbv iota; rewrite IH; [reflexivity|].
  intros Hin; apply H; right; exact Hin.
Qed.

Lemma remove_pair_app (a b : codepoint) (n : nat) (x t : str) :
  (length x <= n)%nat ->
  starts_with (N.eqb b) t = false ->
  remove_pair a b (x ++ t) = remove_pair a b x ++ remove_pair a b t.
Proof.
  revert x; induction n as [|n IH]; intros x Hlen Ht.
  - destruct x; [reflexivity | simpl in Hlen; lia].
  - destruct x as [|c x]; [reflexivity|].
    destruct x as [|c' x'].
    + (* one character before the boundary: no pair across it *)
      destruct t as [|y t']; [reflexivity|].
      change (remove_pair a b ([c] ++ y :: t'))
        with (if N.eqb c a && N.eqb y b then remove_pair a b t'
              else c :: remove_pair a b (y :: t')).
      simpl in Ht; rewrite (N.eqb_sym y b), Ht, andb_false_r; reflexivity.
    + change (remove_pair a b ((c :: c' :: x') ++ t))
        with (if N.eqb c a && N.eqb c' b then remove_pair a b (x' ++ t)
              else c :: remove_pair a b ((c' :: x') ++ t)).
      change (remove_pair a b (c :: c' :: x'))
        with (if N.eqb c a && N.eqb c' b then remove_pair a b x'
              else c :: remove_pair a b (c' :: x')).
      simpl in Hlen.
      destruct (N.eqb c a && N.eqb c' b).
      * apply IH; [lia | exact Ht].
      * rewrite (IH (c' :: x')); [reflexivity | simpl; lia | exact Ht].
Qed.

Lemma split_on_absent (c : codepoint) (t : str) :
  ~ In c t -> split_on c t = [t].
Proof.
  induction t as [|x t IH]; intros H; simpl; [reflexivity|].
  destruct (N.eqb_spec x c) as [-> | Hx]; [exfalso; apply H; left; reflexivity|].
  rewrite IH; [reflexivity|].
  intros Hin; apply H; right; exact Hin.
Qed.

(** The last piece of a split is what follows the last separator. *)
Lemma split_on_last (c : codepoint) (x t : str) :
  ~ In c t -> last (split_on c (x ++ c :: t)) [] = t.
Proof.
  intros Ht.
  assert (H : exists piece rest,
             split_on c (x ++ c :: t) = piece :: rest
             /\ rest <> [] /\ last rest [] = t).
  { induction x as [|y x IH]; simpl.
    - rewrite N.eqb_refl, (split_on_absent c t Ht).
      exists [], [t]; repeat split; discriminate.
    - destruct IH as (piece & rest & E & Hne & Hl); rewrite E.
      destruct (N.eqb y c).
      + exists [], (piece :: rest); repeat split; [discriminate|].
        destruct rest; [congruence | exact Hl].
      + exists (y :: piece), rest; auto. }
  destruct H as (piece & rest & E & Hne & Hl); rewrite E.
  destruct rest; [congruence | exact Hl].
Qed.

Lemma rstrip_no_space (s : str) :
  Forall (fun c => isspace c = false) s -> rstrip s = s.
Proof.
  induction 1 as [|c s Hc _ IH]; simpl; [reflexivity|].
  rewrite IH, Hc; destruct s; reflexivity.
Qed.

Lemma strip_no_space (s : str) :
  Forall (fun c => isspace c = false) s -> strip s = s.
Proof.
  intros H; unfold strip.
  assert (Hl : lstrip s = s).
  { destruct H as [|c s Hc _]; simpl; [reflexivity | rewrite Hc; reflexivity]. }
  rewrite Hl; apply rstrip_no_space, H.
Qed.

Lemma mapM_map {A B C : Type} (f : A -> res B) (h : B -> C) (k : A -> C)
    (l : list A) (bs : list B) :
  (forall a b, In a l -> f a = Ok b -> h b = k a) ->
  mapM f l = Ok bs -> map h bs = map k l.
Proof.
  revert bs; induction l as [|a l IH]; intros bs H E; simpl in E.
  - injection E as <-; reflexivity.
  - destruct (f a) as [b|] eqn:Eb; simpl in E; [|discriminate].
    destruct (mapM f l) as [bs'|] eqn:Ebs; simpl in E; [|discriminate].
    injection E as <-; simpl.
    rewrite (H a b (or_introl eq_refl) Eb), (IH bs'); auto.
    intros a' b' Hin; apply H; right; exact Hin.
Qed.

Section OptionFacts.
Context {D : Digits}.
Hypothesis HD : digits_on_ascii D.

Lemma format_phone_chars (ph : str) :
  Forall is_ascii ph -> Forall phone_char (format_phone ph).
Proof.
  intros Ha.
  assert (Hd : Forall phone_char (local_digits (filter py_isdigit ph))).
  { assert (Hf : Forall phone_char (filter py_isdigit ph)).
    { apply Forall_forall; intros c Hc; apply filter_In in Hc.
      destruct Hc as [Hin Hc]; left.
      rewrite Forall_forall in Ha.
      destruct (HD c (Ha c Hin)) as [_ E]; rewrite <- E; exact Hc. }
    unfold local_digits; destruct (startswith (py "972") (filter py_isdigit ph));
      [|exact Hf].
    constructor; [left; reflexivity|].
    apply Forall_forall; intros c Hc; rewrite Forall_forall in Hf; apply Hf.
    rewrite <- (firstn_skipn 3 (filter py_isdigit ph)); apply in_or_app; right.
    exact Hc. }
  rewrite (format_phone_eq ph); unfold dashed.
  destruct (length (local_digits (filter py_isdigit ph)) =? 10)%nat; [|exact Hd].
  rewrite Forall_forall in Hd.
  apply Forall_app; split; [|apply Forall_app; split].
  - apply Forall_forall; intros c Hc; apply Hd, (firstn_incl 3), Hc.
  - constructor; [right; reflexivity | constructor].
  - apply Forall_forall; intros c Hc; apply Hd.
    rewrite <- (firstn_skipn 3 (local_digits (filter py_isdigit ph))).
    apply in_or_app; right; exact Hc.
Qed.

Lemma phone_char_plain (c : codepoint) :
  phone_char c -> isspace c = false /\ c <> BAR /\ c <> TARGET.
Proof.
  unfold phone_char, ascii_digit; intros [H | ->];
    [|repeat split; discriminate].
  apply andb_true_iff in H; destruct H as [H1 H2].
  apply N.leb_le in H1, H2.
  repeat split.
  - unfold isspace.
    repeat match goal with
           | |- context [(?a <=? ?b)%N] => destruct (N.leb_spec a b); try lia
           | |- context [(?a =? ?b)%N] => destruct (N.eqb_spec a b); try lia
           end; reflexivity.
  - unfold BAR; lia.
  - unfold TARGET; lia.
Qed.

(** What [extract_phone_from_choice] reads from a text "name | phone",
    with or without the target sign in front. *)
Lemma extract_from_text (front name ph : str) :
  front = [] \/ front = [TARGET; SPACE] ->
  marked (front ++ name ++ py " | " ++ ph) = false ->
  Forall phone_char ph ->
  extract_phone_from_choice (front ++ name ++ py " | " ++ ph) = ph.
Proof.
  intros Hfront Hm Hph.
  assert (Hplain : forall c, In c ph -> isspace c = false /\ c <> BAR /\ c <> TARGET)
    by (intros c Hc; rewrite Forall_forall in Hph; apply phone_char_plain, Hph, Hc).
  unfold marked in Hm.
  apply orb_false_iff in Hm; destruct Hm as [Hm Hm3].
  apply orb_false_iff in Hm; destruct Hm as [Hm1 Hm2].
  unfold extract_phone_from_choice; rewrite Hm1, Hm2, Hm3; simpl orb; cbv iota.
  assert (Hrm : exists x,
             remove_pair TARGET SPACE (front ++ name ++ py " | " ++ ph)
             = x ++ BAR :: (SPACE :: ph)).
  { assert (Hbody : remove_pair TARGET SPACE (name ++ py " | " ++ ph)
                    = remove_pair TARGET SPACE (name ++ [SPACE])
                      ++ BAR :: (SPACE :: ph)).
    { change (name ++ py " | " ++ ph)
        with (name ++ [SPACE] ++ (BAR :: SPACE :: ph)).
      rewrite app_assoc.
      rewrite (remove_pair_app TARGET SPACE (length (name ++ [SPACE])));
        [|lia | reflexivity].
      rewrite (remove_pair_absent TARGET SPACE (BAR :: SPACE :: ph)); [reflexivity|].
      intros [H | [H | H]]; try discriminate.
      apply Hplain in H; tauto. }
    destruct Hfront as [-> | ->].
    - eexists; exact Hbody.
    - change (remove_pair TARGET SPACE
                ([TARGET; SPACE] ++ name ++ py " | " ++ ph))
        with (remove_pair TARGET SPACE (name ++ py " | " ++ ph)).
      eexists; exact Hbody. }
  destruct Hrm as [x ->].
  rewrite split_on_last.
  - change (strip (SPACE :: ph)) with (rstrip (lstrip ph)).
    apply strip_no_space, Forall_forall; intros c Hc; apply Hplain, Hc.
  - intros [H | H]; [discriminate | apply Hplain in H; tauto].
Qed.

(** X7: reading the phone back from the options of a guest.  For the
    options [create_radio_options] builds, [extract_phone_from_choice]
    gives the empty phone for the three fixed options and, for each
    candidate, the candidate's phone as [format_phone] writes it; the
    name, whatever it contains, does not leak into the phone.  The
    candidate's name must not begin with one of the three signs, unless its
    score is 100 (the option then begins with the target sign). *)
Theorem radio_options_round_trip (candidates : list scored) (options : list str) :
  Forall
    (fun c =>
       Forall is_ascii (phone (fst c))
       /\ (py_int (snd c) = Ok 100 \/ marked (full_name (fst c)) = false))
    candidates ->
  create_radio_options candidates = Ok options ->
  length options = (length candidates + 3)%nat
  /\ map extract_phone_from_choice options
     = [[]] ++ map (fun c => format_phone (phone (fst c))) candidates ++ [[]; []].
Proof.
  intros Hc H; unfold create_radio_options in H.
  destruct (mapM option_text candidates) as [texts|] eqn:E; simpl in H;
    [|discriminate].
  injection H as <-.
  split.
  - simpl; rewrite length_app, (mapM_length _ _ _ E); simpl; lia.
  - cbn [map app]; rewrite map_app; cbn [map].
    change (extract_phone_from_choice NO_MATCH) with (@nil codepoint).
    change (extract_phone_from_choice MANUAL_ENTRY) with (@nil codepoint).
    change (extract_phone_from_choice CONTACT_SEARCH) with (@nil codepoint).
    f_equal; f_equal.
    apply (mapM_map option_text) with (2 := E).
    intros [r sc] t Hin Ht.
    rewrite Forall_forall in Hc; destruct (Hc _ Hin) as [Ha Hs]; simpl in Ha, Hs.
    unfold option_text in Ht; simpl in Ht.
    destruct (py_int sc) as [z|] eqn:Ez; simpl in Ht; [|discriminate].
    injection Ht as <-.
    pose proof (format_phone_chars (phone r) Ha) as Hph.
    destruct (Z.eqb_spec z 100) as [-> | Hz].
    + apply (extract_from_text [TARGET; SPACE]); [right; reflexivity | reflexivity | exact Hph].
    + apply (extract_from_text []); [left; reflexivity | | exact Hph].
      destruct Hs as [Hs | Hs]; [congruence|].
      destruct (full_name r); [reflexivity | exact Hs].
Qed.
End OptionFacts.

(** ** Tokenizer: words, noise words and the reason text *)

Lemma clean_token_nil : _clean_token [] = [].
Proof. reflexivity. Qed.

Lemma re_split_ws_head_space (s : str) :
  starts_with isspace s = true -> exists rest, re_split_ws s = [] :: rest.
Proof.
  induction s as [|c s IH]; simpl; [discriminate|].
  intros Hc; rewrite Hc.
  destruct (starts_with isspace s) eqn:E; [apply IH; reflexivity | eauto].
Qed.

(** Splitting a text at a whitespace character: the first piece is the
    first piece of the left part, and the words are the words of both
    parts. *)
Lemma re_split_ws_app (sp : codepoint) (a b : str) :
  isspace sp = true ->
  exists piece r r',
    re_split_ws (a ++ sp :: b) = piece :: r
    /\ re_split_ws a = piece :: r'
    /\ filter nonempty r = filter nonempty r' ++ split_words b.
Proof.
  intros Hsp; induction a as [|c a IH].
  - simpl; rewrite Hsp.
    destruct (starts_with isspace b) eqn:E.
    + destruct (re_split_ws_head_space b E) as [rest Hr].
      exists [], rest, []; unfold split_words; rewrite Hr; auto.
    + exists [], (re_split_ws b), []; auto.
  - destruct IH as (piece & r & r' & E1 & E2 & E3).
    simpl; rewrite E1, E2.
    destruct (isspace c) eqn:Ec.
    + destruct a as [|c' a']; simpl.
      * (* the left part ends here: its first piece is empty *)
        rewrite Hsp; simpl in E2; injection E2 as <- <-.
        exists [], r, [[]]; simpl in *; auto.
      * destruct (isspace c').
        -- exists piece, r, r'; auto.
        -- exists [], (piece :: r), (piece :: r'); simpl.
           repeat split; destruct (nonempty piece); simpl; rewrite E3; reflexivity.
    + exists (c :: piece), r, r'; auto.
Qed.

Lemma split_words_app (sp : codepoint) (a b : str) :
  isspace sp = true ->
  split_words (a ++ sp :: b) = split_words a ++ split_words b.
Proof.
  intros Hsp; destruct (re_split_ws_app sp a b Hsp) as (piece & r & r' & E1 & E2 & E3).
  unfold split_words at 1 2; rewrite E1, E2; simpl.
  destruct (nonempty piece); simpl; rewrite E3; reflexivity.
Qed.

Lemma filter_map_skip {A B : Type} (g : B -> bool) (f : A -> B) (h : A -> bool)
    (l : list A) :
  (forall x, h x = false -> g (f x) = false) ->
  filter g (map f l) = filter g (map f (filter h l)).
Proof.
  intros H; induction l as [|x l IH]; simpl; [reflexivity|].
  destruct (h x) eqn:E; simpl; [rewrite IH; reflexivity|].
  rewrite (H x E); exact IH.
Qed.

Lemma tokens_of_words (name : str) :
  _tokens name
  = filter (fun t => nonempty t && negb (mem t GENERIC_TOKENS))
      (map _clean_token (split_words name)).
Proof.
  unfold _tokens, split_words; apply filter_map_skip.
  intros [|c x] H; [reflexivity | discriminate].
Qed.

(** X8: the tokens of two texts joined by a whitespace character are the
    tokens of the first followed by the tokens of the second: tokenizing
    does not depend on how many blanks separate the words or surround
    them. *)
Theorem tokens_app (sp : codepoint) (a b : str) :
  isspace sp = true ->
  _tokens (a ++ sp :: b) = _tokens a ++ _tokens b.
Proof.
  intros Hsp.
  rewrite !tokens_of_words, (split_words_app sp a b Hsp), map_app, filter_app.
  reflexivity.
Qed.

Lemma tokens_app_witness :
  _tokens (py "  dan" ++ SPACE :: py " cohen ") = _tokens (py "  dan") ++ _tokens (py " cohen ").
Proof. apply (tokens_app SPACE); reflexivity. Defined.

Lemma re_split_ws_no_space (s : str) :
  Forall (Forall (fun c => isspace c = false)) (re_split_ws s).
Proof.
  induction s as [|c s IH]; simpl; [repeat constructor|].
  destruct (isspace c) eqn:Ec.
  - destruct (starts_with isspace s); [exact IH | constructor; [constructor | exact IH]].
  - destruct (re_split_ws s) as [|piece rest]; [repeat constructor; exact Ec|].
    inversion IH; subst; constructor; [constructor|]; assumption.
Qed.

Lemma tl_Forall {A : Type} (P : A -> Prop) (l : list A) :
  Forall P l -> Forall P (tl l).
Proof. destruct 1; simpl; [constructor | assumption]. Qed.

Lemma removelast_Forall {A : Type} (P : A -> Prop) (l : list A) :
  Forall P l -> Forall P (removelast l).
Proof.
  induction 1 as [|x l Hx Hl IH]; simpl; [constructor|].
  destruct l; [constructor | constructor; assumption].
Qed.

Lemma clean_token_Forall (P : codepoint -> Prop) (tok : str) :
  Forall P tok -> Forall P (_clean_token tok).
Proof.
  intros H; unfold _clean_token.
  destruct (mem tok SUFFIX_TOKENS); [constructor|].
  cbv zeta.
  destruct (starts_with (N.eqb LETTER_V) tok && (2 <? length tok)%nat).
  - destruct ((4 <=? length (tl tok))%nat && ends_with LETTER_I (tl tok));
      [apply removelast_Forall|]; apply tl_Forall, H.
  - destruct ((4 <=? length tok)%nat && ends_with LETTER_I tok);
      [apply removelast_Forall|]; exact H.
Qed.

(** X9: every token [_tokens] returns is non-empty, is not one of the
    generic relation words, and contains no whitespace. *)
Theorem tokens_clean (name : str) :
  Forall
    (fun t =>
       nonempty t = true
       /\ mem t GENERIC_TOKENS = false
       /\ Forall (fun c => isspace c = false) t)
    (_tokens name).
Proof.
  unfold _tokens; apply Forall_forall; intros t Ht.
  apply filter_In in Ht; destruct Ht as [Hin Hg].
  apply andb_true_iff in Hg; destruct Hg as [Hn Hm].
  apply negb_true_iff in Hm.
  repeat split; [exact Hn | exact Hm|].
  apply in_map_iff in Hin; destruct Hin as (piece & <- & Hp).
  apply clean_token_Forall.
  pose proof (re_split_ws_no_space name) as H.
  rewrite Forall_forall in H; apply H, Hp.
Qed.

Lemma noise_words_no_tokens :
  forallb (fun w => match _tokens w with [] => true | _ => false end)
    (SUFFIX_TOKENS ++ GENERIC_TOKENS) = true.
Proof. vm_compute; reflexivity. Qed.

Lemma noise_word_tokens (w : str) :
  In w (SUFFIX_TOKENS ++ GENERIC_TOKENS) -> _tokens w = [].
Proof.
  intros H; pose proof noise_words_no_tokens as A.
  rewrite forallb_forall in A; specialize (A w H).
  destruct (_tokens w); [reflexivity | discriminate].
Qed.

(** X10: a noise word (a suffix such as "mil", or a generic relation word)
    added after a name does not change the score: the name with the word
    and the name without it score 100 against each other, in both
    directions. *)
Theorem full_score_noise_word (F : RapidFuzz) (base w : str) :
  base <> [] ->
  In w (SUFFIX_TOKENS ++ GENERIC_TOKENS) ->
  full_score base (base ++ SPACE :: w) = Ok (PyInt 100)
  /\ full_score (base ++ SPACE :: w) base = Ok (PyInt 100).
Proof.
  intros Hb Hw.
  assert (Ht : _tokens (base ++ SPACE :: w) = _tokens base).
  { rewrite (tokens_of_words (base ++ SPACE :: w)).
    rewrite (split_words_app SPACE base w eq_refl), map_app, filter_app.
    rewrite <- !tokens_of_words, (noise_word_tokens w Hw), app_nil_r.
    reflexivity. }
  assert (Hn : nonempty (base ++ SPACE :: w) = true)
    by (destruct base; [congruence | reflexivity]).
  apply nonempty_true in Hb.
  unfold full_score; rewrite Hb, Hn, Ht; simpl.
  assert (E : strs_eqb (_tokens base) (_tokens base) = true)
    by (apply strs_eqb_eq; reflexivity).
  rewrite E; split;
    match goal with |- context [str_eqb ?a ?b] => destruct (str_eqb a b) end;
    reflexivity.
Qed.

Lemma full_score_noise_word_witness :
  full_score (F := rapidfuzz_model) (py "dan cohen") (py "dan cohen" ++ SPACE :: py "miluyim")
    = Ok (PyInt 100)
  /\ full_score (F := rapidfuzz_model) (py "dan cohen" ++ SPACE :: py "miluyim") (py "dan cohen")
    = Ok (PyInt 100).
Proof.
  apply (full_score_noise_word rapidfuzz_model).
  - discriminate.
  - right; left; reflexivity.
Defined.

(** X11: [reason_for] gives the empty text exactly when no cleaned token
    of the guest is a cleaned token of the contact and the score is below
    the auto-select threshold 93. *)
Theorem reason_empty_iff (g c : str) (sc : Z) :
  reason_for g c sc = []
  <-> (forall t, In t (_tokens g) -> ~ In t (_tokens c)) /\ sc < 93.
Proof.
  unfold reason_for.
  destruct (filter (fun t => mem t (_tokens c)) (_tokens g)) as [|t l] eqn:E.
  - assert (Hno : forall t, In t (_tokens g) -> ~ In t (_tokens c)).
    { intros t Ht Hc.
      assert (H : In t (filter (fun t => mem t (_tokens c)) (_tokens g)))
        by (apply filter_In; split; [exact Ht | apply mem_In, Hc]).
      rewrite E in H; exact H. }
    unfold AUTO_SELECT_TH; destruct (Z.leb_spec 93 sc); split.
    + discriminate.
    + intros [_ H']; lia.
    + auto.
    + reflexivity.
  - split; [discriminate|].
    intros [Hno _]; exfalso.
    assert (H : In t (filter (fun t => mem t (_tokens c)) (_tokens g)))
      by (rewrite E; left; reflexivity).
    apply filter_In in H; destruct H as [H1 H2].
    apply (Hno t H1), mem_In, H2.
Qed.

(** ** Fuzzy Jaccard: the match count *)

Section MatchCount.
Context {F : RapidFuzz}.

(** X12: the number of matches [_fuzzy_jaccard] counts is at most the
    number of guest tokens; the union it divides by is positive as soon as
    there is a guest token; and when no guest token is repeated the match
    count does not exceed the union, so the signal cannot pass 1. *)
Theorem match_count_bounds (gs cs : list str) :
  let matched := Z.of_nat (fst (match_loop gs cs 0 [])) in
  let union :=
    Z.of_nat (length (dedup gs)) + Z.of_nat (length (dedup cs)) - matched in
  matched <= Z.of_nat (length gs)
  /\ (gs <> [] -> 0 < union)
  /\ (dedup gs = gs -> matched <= union).
Proof.
  intros matched union; subst union matched.
  rewrite match_loop_greedy, unused_nil; simpl Nat.add.
  pose proof (greedy_matches_le_guests gs (dedup cs)) as H1.
  pose proof (greedy_matches_bound gs (dedup cs)) as H2.
  repeat split.
  - lia.
  - intros Hne; destruct gs as [|g gs]; [congruence|].
    cbn [dedup length]; lia.
  - intros Hd; rewrite Hd; lia.
Qed.
End MatchCount.

(** ** Floats: the order is a lexicographic order of keys *)

Lemma SFcompare_key (x y : spec_float) :
  x <> S754_nan -> y <> S754_nan ->
  match SFcompare x y with
  | Some Lt => key_lt (sf_key x) (sf_key y)
  | Some Eq => sf_key x = sf_key y
  | Some Gt => key_lt (sf_key y) (sf_key x)
  | None => False
  end.
Proof.
  intros Hx Hy.
  destruct x as [sx|sx| |sx mx ex], y as [sy|sy| |sy my ey];
    try congruence; simpl;
    try (destruct sx; simpl; lia);
    try (destruct sy; simpl; lia);
    try (destruct sx, sy; simpl; (reflexivity || lia)).
  change (Pos.compare_cont Eq mx my) with (Pos.compare mx my).
  destruct sx, sy; simpl; try lia;
    destruct (Z.compare_spec ex ey); simpl; try lia;
    destruct (Pos.compare_spec mx my); simpl; subst; try lia; reflexivity.
Qed.

Lemma key_lt_irrefl (a : Z * Z * Z) : ~ key_lt a a.
Proof. destruct a as [[a1 a2] a3]; simpl; lia. Qed.

Lemma key_lt_trans (a b c : Z * Z * Z) : key_lt a b -> key_lt b c -> key_lt a c.
Proof.
  destruct a as [[a1 a2] a3], b as [[b1 b2] b3], c as [[c1 c2] c3]; simpl; lia.
Qed.

Lemma key_lt_asym (a b : Z * Z * Z) : key_lt a b -> ~ key_lt b a.
Proof. intros H H'; apply (key_lt_irrefl a), (key_lt_trans a b a); assumption. Qed.

Lemma ltb_key (a b : float) :
  a_number a -> a_number b ->
  ((a <? b)%float = true <-> key_lt (float_key a) (float_key b)).
Proof.
  intros Ha Hb; rewrite FloatAxioms.ltb_spec; unfold SFltb, float_key.
  pose proof (SFcompare_key _ _ Ha Hb) as H.
  pose proof (SFcompare_key _ _ Hb Ha) as H'.
  rewrite (SFcompare_antisym (Prim2SF a) (Prim2SF b)) in H'.
  destruct (SFcompare (Prim2SF a) (Prim2SF b)) as [[| |]|]; simpl in *;
    split; intros K; try discriminate; try reflexivity; try contradiction;
    try exact H.
  - rewrite H in K; apply key_lt_irrefl in K; contradiction.
  - exfalso; apply (key_lt_asym _ _ K), H.
Qed.

Lemma eqb_key (a b : float) :
  a_number a -> a_number b ->
  ((a =? b)%float = true <-> float_key a = float_key b).
Proof.
  intros Ha Hb; rewrite FloatAxioms.eqb_spec; unfold SFeqb, float_key.
  pose proof (SFcompare_key _ _ Ha Hb) as H.
  destruct (SFcompare (Prim2SF a) (Prim2SF b)) as [[| |]|]; simpl in *;
    split; intros K; try discriminate; try reflexivity; try contradiction;
    try exact H.
  - rewrite K in H; apply key_lt_irrefl in H; contradiction.
  - rewrite K in H; apply key_lt_irrefl in H; contradiction.
Qed.

Lemma leb_key (a b : float) :
  a_number a -> a_number b ->
  ((a <=? b)%float = true
   <-> key_lt (float_key a) (float_key b) \/ float_key a = float_key b).
Proof.
  intros Ha Hb; rewrite FloatAxioms.leb_spec; unfold SFleb, float_key.
  pose proof (SFcompare_key _ _ Ha Hb) as H.
  destruct (SFcompare (Prim2SF a) (Prim2SF b)) as [[| |]|]; simpl in *;
    split; intros K; auto; try discriminate; try contradiction.
  destruct K as [K | K].
  - exfalso; apply (key_lt_asym _ _ K), H.
  - rewrite K in H; apply key_lt_irrefl in H; contradiction.
Qed.

Lemma leb_number_l (a b : float) : (a <=? b)%float = true -> a_number a.
Proof.
  rewrite FloatAxioms.leb_spec; unfold SFleb, a_number; intros H E.
  rewrite E in H; discriminate.
Qed.

Lemma leb_trans (a b c : float) :
  (a <=? b)%float = true -> (b <=? c)%float = true -> (a <=? c)%float = true.
Proof.
  intros Hab Hbc.
  pose proof (leb_number_l _ _ Hab) as Na.
  pose proof (leb_number_l _ _ Hbc) as Nb.
  pose proof (leb_not_nan _ _ Hbc) as Nc.
  apply (leb_key a b Na Nb) in Hab.
  apply (leb_key b c Nb Nc) in Hbc.
  apply (leb_key a c Na Nc).
  destruct Hab as [Hab | Eab], Hbc as [Hbc | Ebc].
  - left; apply (key_lt_trans _ _ _ Hab Hbc).
  - left; rewrite <- Ebc; exact Hab.
  - left; rewrite Eab; exact Hbc.
  - right; congruence.
Qed.

(** A row that reaches a threshold reaches every lower one. *)
Lemma score_ge_mono (lo hi : Z) (r : scored) :
  (float_of_Z lo <=? float_of_Z hi)%float = true ->
  score_ge hi r = true -> score_ge lo r = true.
Proof. unfold score_ge; apply leb_trans. Qed.

Lemma ltb_nan_r (a b : float) : is_nan b = true -> (a <? b)%float = false.
Proof.
  intros Hb; rewrite FloatAxioms.ltb_spec; unfold SFltb.
  assert (E : Prim2SF b = S754_nan).
  { destruct (Prim2SF b) eqn:E; try reflexivity; exfalso;
      assert (Hn : Prim2SF b <> S754_nan) by (rewrite E; discriminate);
      rewrite (not_nan_is_nan b Hn) in Hb; discriminate. }
  rewrite E; destruct (Prim2SF a); reflexivity.
Qed.

Lemma is_nan_false_number (a : float) : is_nan a = false -> a_number a.
Proof.
  unfold is_nan, a_number; rewrite FloatAxioms.eqb_spec; unfold SFeqb.
  intros H E; rewrite E in H; discriminate.
Qed.

(** No element of a column exceeds its maximum. *)
Lemma series_max_step_upper (l seen : list float) (acc : float) :
  (forall y, In y seen -> (acc <? y)%float = false) ->
  (is_nan acc = true -> forall y, In y seen -> is_nan y = true) ->
  forall y, In y (seen ++ l) ->
    (fold_left
       (fun acc x =>
          if is_nan x then acc
          else if is_nan acc then x
          else if (acc <? x)%float then x else acc)
       l acc <? y)%float = false.
Proof.
  revert seen acc; induction l as [|x l IH]; intros seen acc H1 H2 y Hy.
  - rewrite app_nil_r in Hy; simpl; apply H1, Hy.
  - simpl; apply (IH (seen ++ [x])); [| |rewrite <- app_assoc; exact Hy].
    + intros z Hz; apply in_app_or in Hz.
      destruct (is_nan x) eqn:Ex.
      * destruct Hz as [Hz | [<- | []]]; [apply H1, Hz | apply ltb_nan_r, Ex].
      * pose proof (is_nan_false_number x Ex) as Nx.
        assert (Hxx : (x <? x)%float = false).
        { destruct (x <? x)%float eqn:E; [|reflexivity].
          apply (ltb_key x x Nx Nx), key_lt_irrefl in E; contradiction. }
        destruct (is_nan acc) eqn:Ea.
        -- destruct Hz as [Hz | [<- | []]]; [|exact Hxx].
           apply ltb_nan_r, (H2 eq_refl), Hz.
        -- pose proof (is_nan_false_number acc Ea) as Na.
           destruct (acc <? x)%float eqn:Elt.
           ++ destruct Hz as [Hz | [<- | []]]; [|exact Hxx].
              destruct (is_nan z) eqn:Ez; [apply ltb_nan_r, Ez|].
              pose proof (is_nan_false_number z Ez) as Nz.
              destruct (x <? z)%float eqn:E; [|reflexivity].
              apply (ltb_key x z Nx Nz) in E.
              apply (ltb_key acc x Na Nx) in Elt.
              pose proof (key_lt_trans _ _ _ Elt E) as K.
              apply (ltb_key acc z Na Nz) in K.
              rewrite (H1 z Hz) in K; discriminate.
           ++ destruct Hz as [Hz | [<- | []]]; [apply H1, Hz | exact Elt].
    + intros Hn z Hz; apply in_app_or in Hz.
      destruct (is_nan x) eqn:Ex.
      * destruct Hz as [Hz | [<- | []]]; [apply H2; assumption | exact Ex].
      * destruct (is_nan acc) eqn:Ea; [congruence|].
        destruct (acc <? x)%float; congruence.
Qed.

Lemma series_max_upper (l : list float) (y : float) :
  In y l -> (series_max l <? y)%float = false.
Proof.
  intros Hy; unfold series_max.
  apply (series_max_step_upper l [] nan); [intros ? [] | intros _ ? [] | exact Hy].
Qed.

Lemma series_max_member (l : list float) :
  is_nan (series_max l) = false -> In (series_max l) l.
Proof.
  intros H; unfold series_max in *.
  destruct (series_max_step_In l nan) as [E | Hin]; [|exact Hin].
  rewrite <- E in H; discriminate.
Qed.

Lemma float_trunc_number (f : float) (z : Z) :
  float_trunc f = Ok z -> is_nan f = false.
Proof.
  unfold float_trunc; intros H; apply not_nan_is_nan; intros E.
  rewrite E in H; discriminate.
Qed.

Lemma key_lt_total (a b : Z * Z * Z) : key_lt a b \/ a = b \/ key_lt b a.
Proof.
  destruct a as [[a1 a2] a3], b as [[b1 b2] b3]; simpl.
  destruct (Z.compare_spec a1 b1), (Z.compare_spec a2 b2),
    (Z.compare_spec a3 b3); subst; auto; lia.
Qed.

(** Two numbers with one key have one integer part. *)
Lemma float_key_trunc (x y : float) :
  float_key x = float_key y -> float_trunc x = float_trunc y.
Proof.
  unfold float_key, float_trunc.
  destruct (Prim2SF x) as [sx|sx| |sx mx ex], (Prim2SF y) as [sy|sy| |sy my ey];
    try reflexivity; simpl; intros H;
    repeat match goal with s : bool |- _ => destruct s end;
    try discriminate H; try reflexivity;
    injection H as H1 H2;
    assert (ex = ey) by lia; assert (mx = my) by lia; subst; reflexivity.
Qed.

(** ** Best-score aggregator: what it returns *)

Lemma mapM_Forall2 {A B : Type} (f : A -> res B) (l : list A) (bs : list B) :
  mapM f l = Ok bs -> Forall2 (fun a b => f a = Ok b) l bs.
Proof.
  revert bs; induction l as [|a l IH]; intros bs H; simpl in H.
  - injection H as <-; constructor.
  - destruct (f a) as [b|] eqn:Eb; simpl in H; [|discriminate].
    destruct (mapM f l) as [bs'|] eqn:Ebs; simpl in H; [|discriminate].
    injection H as <-; constructor; [exact Eb | apply IH; reflexivity].
Qed.

Section Aggregator.
Context {F : RapidFuzz}.

Lemma best_of_max (n : str) (contacts_df : list row) (scores : list pynum) (b : Z) :
  score_column n contacts_df = Ok scores ->
  float_trunc (series_max (map to_float scores)) = Ok b ->
  best_of n contacts_df b.
Proof.
  intros Hs Hb.
  pose proof (series_max_member _ (float_trunc_number _ _ Hb)) as Hin.
  apply in_map_iff in Hin; destruct Hin as (top & Etop & Hin).
  exists scores, top; repeat split; [exact Hs | exact Hin | | rewrite Etop; exact Hb].
  intros s Hs'; rewrite Etop; apply series_max_upper, in_map, Hs'.
Qed.

(** The best score of a name is unique. *)
Lemma best_of_unique (n : str) (contacts_df : list row) (b b' : Z) :
  best_of n contacts_df b -> best_of n contacts_df b' -> b = b'.
Proof.
  intros (scores & top & Hs & Hin & Hup & Ht) (scores' & top' & Hs' & Hin' & Hup' & Ht').
  rewrite Hs in Hs'; injection Hs' as <-.
  pose proof (is_nan_false_number _ (float_trunc_number _ _ Ht)) as N.
  pose proof (is_nan_false_number _ (float_trunc_number _ _ Ht')) as N'.
  assert (E : float_trunc (to_float top) = float_trunc (to_float top')).
  { destruct (key_lt_total (float_key (to_float top)) (float_key (to_float top')))
      as [K | [K | K]].
    - apply (ltb_key _ _ N N') in K; rewrite (Hup top' Hin') in K; discriminate.
    - apply float_key_trunc, K.
    - apply (ltb_key _ _ N' N) in K; rewrite (Hup' top Hin) in K; discriminate. }
  rewrite Ht, Ht' in E; injection E as E; exact E.
Qed.

(** X13: when [compute_best_scores] returns, it returns one number per
    guest: 0 for a guest without a normalized name, and otherwise the
    integer part of a score that some contact attains against the guest
    and that no contact's score exceeds. *)
Theorem compute_best_scores_max (guests_df contacts_df : list row) (bests : list Z) :
  compute_best_scores guests_df contacts_df = Ok bests ->
  Forall2
    (fun g b =>
       if nonempty (norm_name g) then best_of (norm_name g) contacts_df b
       else b = 0)
    guests_df bests.
Proof.
  intros H; apply mapM_Forall2 in H.
  induction H as [|g b gs bs Hg _ IH]; [constructor|].
  constructor; [|exact IH].
  cbv zeta in Hg.
  destruct (nonempty (norm_name g)); [|injection Hg as <-; reflexivity].
  destruct (score_column (norm_name g) contacts_df) as [scores|] eqn:Es;
    simpl in Hg; [|discriminate].
  apply (best_of_max _ _ scores); assumption.
Qed.
End Aggregator.

Lemma compute_best_scores_max_witness :
  Forall2
    (fun g b =>
       if nonempty (norm_name g)
       then best_of (F := rapidfuzz_model) (norm_name g) two_contacts b
       else b = 0)
    [ row_of "" ""; row_of "Yossi Cohen" "yossi cohen" ] [0; 65].
Proof.
  apply (compute_best_scores_max (F := rapidfuzz_model)).
  vm_compute; reflexivity.
Defined.

(** ** Candidate selector: the rows left out and the reason column *)

Lemma str_leb_trans (a b c : str) :
  str_leb a b = true -> str_leb b c = true -> str_leb a c = true.
Proof.
  revert b c; induction a as [|x a IH]; intros [|y b] [|z c]; simpl;
    try reflexivity; try discriminate.
  destruct (N.ltb_spec x y), (N.ltb_spec y z), (N.ltb_spec x z);
    try reflexivity; try lia;
    destruct (N.eqb_spec x y), (N.eqb_spec y z), (N.eqb_spec x z);
    try discriminate; try lia.
  apply IH.
Qed.

Lemma before_cases (a b : scored) :
  not_nan a -> not_nan b ->
  (before a b = true
   <-> key_lt (float_key (score_of b)) (float_key (score_of a))
       \/ (float_key (score_of a) = float_key (score_of b)
           /\ str_leb (full_name (fst a)) (full_name (fst b)) = true)).
Proof.
  intros Ha Hb; unfold before.
  rewrite orb_true_iff, andb_true_iff.
  rewrite (ltb_key _ _ Hb Ha), (eqb_key _ _ Ha Hb); reflexivity.
Qed.

Lemma before_trans (a b c : scored) :
  not_nan a -> not_nan b -> not_nan c ->
  before a b = true -> before b c = true -> before a c = true.
Proof.
  intros Ha Hb Hc Hab Hbc.
  apply (before_cases a b Ha Hb) in Hab.
  apply (before_cases b c Hb Hc) in Hbc.
  apply (before_cases a c Ha Hc).
  destruct Hab as [Hab | [Eab Lab]], Hbc as [Hbc | [Ebc Lbc]].
  - left; apply (key_lt_trans _ _ _ Hbc Hab).
  - left; rewrite <- Ebc; exact Hab.
  - left; rewrite Eab; exact Hbc.
  - right; split; [congruence | apply (str_leb_trans _ _ _ Lab Lbc)].
Qed.

Lemma ranked_all_after (a : scored) (l : list scored) :
  not_nan a -> Forall not_nan l -> ranked (a :: l) ->
  Forall (fun b => before a b = true) l.
Proof.
  intros Ha Hl; revert a Ha; induction Hl as [|b l Hb Hl IH]; intros a Ha Hr;
    [constructor|].
  apply Sorted_inv in Hr; destruct Hr as [Hr Hd].
  inversion Hd as [|? ? Hab]; subst.
  constructor; [exact Hab|].
  specialize (IH b Hb Hr).
  eapply Forall_impl; [|apply Forall_and; [exact IH | exact Hl]].
  intros c [Hbc Hc]; apply (before_trans a b c); assumption.
Qed.

Lemma ranked_split (n : nat) (l : list scored) :
  Forall not_nan l -> ranked l ->
  forall a b, In a (firstn n l) -> In b (skipn n l) -> before a b = true.
Proof.
  revert l; induction n as [|n IH]; intros l Hl Hr a b Ha Hb; [contradiction|].
  destruct l as [|x l]; [contradiction|].
  inversion Hl as [|? ? Hx Hl']; subst.
  simpl in Ha, Hb; destruct Ha as [<- | Ha].
  - pose proof (ranked_all_after x l Hx Hl' Hr) as H.
    rewrite Forall_forall in H; apply H.
    rewrite <- (firstn_skipn n l); apply in_or_app; right; exact Hb.
  - apply Sorted_inv in Hr; destruct Hr as [Hr _].
    apply (IH l Hl' Hr); assumption.
Qed.

Lemma with_reason_unreason {F : RapidFuzz} (g : str) (r : scored) (c : candidate) :
  with_reason g r = Ok c -> unreason c = r.
Proof.
  unfold with_reason; destruct (py_int (snd r)); simpl; [|discriminate].
  intros H; injection H as <-; destruct r; reflexivity.
Qed.

Section Selected.
Context {F : RapidFuzz}.

(** What a successful call of [top_matches] has computed. *)
Lemma top_matches_inv (g : str) (contacts_df : list row) (rows : list candidate) :
  g <> [] ->
  top_matches g contacts_df = Ok rows ->
  exists scores m,
    score_column g contacts_df = Ok scores
    /\ float_trunc (series_max (map to_float scores)) = Ok m
    /\ mapM (with_reason g) (tiered m (combine contacts_df scores)) = Ok rows
    /\ map unreason rows = tiered m (combine contacts_df scores).
Proof.
  intros Hg H; apply nonempty_true in Hg.
  unfold top_matches in H; rewrite Hg in H; simpl in H.
  destruct (score_column g contacts_df) as [scores|] eqn:Es; simpl in H;
    [|discriminate].
  destruct (float_trunc (series_max (map to_float scores))) as [m|] eqn:Et;
    simpl in H; [|discriminate].
  exists scores, m.
  assert (Hm : mapM (with_reason g) (tiered m (combine contacts_df scores)) = Ok rows).
  { unfold attach_reason in H.
    destruct (tiered m (combine contacts_df scores)); [discriminate | exact H]. }
  split; [reflexivity|]; split; [exact Et|]; split; [exact Hm|].
  rewrite <- (map_id (tiered m (combine contacts_df scores))).
  apply (mapM_map (with_reason g) unreason (fun r => r)) with (2 := Hm).
  intros r c _; apply with_reason_unreason.
Qed.

(** The tier of [top_matches] is the shortlist at the threshold of the
    active tier. *)
Lemma tiered_active (m : Z) (df : list scored) :
  tiered m df = shortlist (active_threshold m df) df.
Proof.
  unfold tiered, active_threshold, AUTO_SCORE, MIN_SCORE_DISPLAY.
  destruct (m =? 100); [reflexivity|].
  destruct (existsb (score_ge 70) df) eqn:E.
  - apply existsb_exists in E.
    destruct (shortlist_in_tier 70 df) as [(_ & _ & H) _].
    destruct (shortlist 70 df); [exfalso; apply (H E); reflexivity | reflexivity].
  - rewrite (shortlist_nil 70 df); [reflexivity|].
    intros r Hr; destruct (score_ge 70 r) eqn:Er; [|reflexivity].
    rewrite <- E; symmetry; apply existsb_exists; exists r; auto.
Qed.

Lemma tiered_policy (m : Z) (df : list scored) : tier_policy df m (tiered m df).
Proof.
  unfold tier_policy, tiered.
  split; [|split; [|split]].
  - intros ->; simpl; apply shortlist_in_tier.
  - intros Hm100 Hex70.
    apply Z.eqb_neq in Hm100; unfold AUTO_SCORE, MIN_SCORE_DISPLAY; rewrite Hm100.
    destruct (shortlist_in_tier 70 df) as [(H1 & H2 & H3) _].
    destruct (shortlist 70 df) eqn:E;
      [exfalso; apply (H3 Hex70); reflexivity|].
    split; [exact H1 | split; [exact H2 | exact H3]].
  - intros Hm100 Hno.
    apply Z.eqb_neq in Hm100; unfold AUTO_SCORE, MIN_SCORE_DISPLAY; rewrite Hm100.
    rewrite (shortlist_nil 70 _ Hno); apply shortlist_in_tier.
  - destruct (m =? AUTO_SCORE); [apply shortlist_in_tier|].
    destruct (shortlist MIN_SCORE_DISPLAY df) eqn:E;
      [|rewrite <- E]; apply shortlist_in_tier.
Qed.

(** When no contact reaches 50 every tier is empty. *)
Lemma tiered_nil (m : Z) (df : list scored) :
  (forall r, In r df -> score_ge 50 r = false) -> tiered m df = [].
Proof.
  intros Hno.
  assert (H : forall th, (float_of_Z 50 <=? float_of_Z th)%float = true ->
                         shortlist th df = []).
  { intros th Hth; apply shortlist_nil; intros r Hr.
    destruct (score_ge th r) eqn:E; [|reflexivity].
    rewrite <- (Hno r Hr); symmetry; apply (score_ge_mono 50 th r Hth E). }
  unfold tiered, MIN_SCORE_DISPLAY.
  rewrite (H 90), (H 70), (H 50) by (vm_compute; reflexivity).
  destruct (m =? AUTO_SCORE); reflexivity.
Qed.

(** With a non-empty guest name and no contact scoring at least 50,
    [top_matches] raises: on [int(nan)] when the table has no rows, and
    otherwise on the reason column of the empty shortlist. *)
Lemma top_matches_none (g : str) (contacts_df : list row) (scores : list pynum) :
  g <> [] ->
  score_column g contacts_df = Ok scores ->
  forallb (fun s => finite (to_float s)) scores = true ->
  (forall r, In r (combine contacts_df scores) -> score_ge 50 r = false) ->
  top_matches g contacts_df = Raise ValueError.
Proof.
  intros Hg Hs Hf Hno.
  apply nonempty_true in Hg.
  unfold top_matches; rewrite Hg, Hs; simpl.
  destruct scores as [|s scores]; [reflexivity|].
  destruct (float_trunc_finite (series_max (map to_float (s :: scores))))
    as [m Hm].
  { apply series_max_finite; [discriminate|].
    apply Forall_map, Forall_forall, forallb_forall; exact Hf. }
  rewrite Hm; simpl.
  rewrite (tiered_nil m _ Hno); reflexivity.
Qed.

(** C8: the tiered policy of [top_matches], and where the code leaves
    it.  When some contact scores at least 50, [top_matches] returns;
    with [m] the integer part of the maximum score, the shortlist holds
    only contacts scoring >= 90 when [m] is 100, otherwise only contacts
    scoring >= 70, and only contacts scoring >= 50 when no contact
    reaches 70; in each tier it is not empty and is sorted by score
    descending, then name ascending.  When no contact scores at least
    50, the fallback tier is empty and [top_matches] raises
    [ValueError] instead of returning it. *)
Theorem top_matches_tiers (g : str) (contacts_df : list row) (scores : list pynum) :
  g <> [] ->
  score_column g contacts_df = Ok scores ->
  forallb (fun s => finite (to_float s)) scores = true ->
  ((exists r, In r (combine contacts_df scores) /\ score_ge 50 r = true) ->
   exists rows m,
     top_matches g contacts_df = Ok rows
     /\ best_of g contacts_df m
     /\ tier_policy (combine contacts_df scores) m (map unreason rows))
  /\ ((forall r, In r (combine contacts_df scores) -> score_ge 50 r = false) ->
      top_matches g contacts_df = Raise ValueError).
Proof.
  intros Hg Hs Hf; split.
  - intros Hex.
    destruct (top_matches_run g contacts_df scores Hg Hs Hf Hex)
      as (rows & m & Ht & Hm & Hu & _).
    exists rows, m; split; [exact Ht|]; split.
    + apply (best_of_max g contacts_df scores m Hs Hm).
    + rewrite Hu; apply tiered_policy.
  - apply top_matches_none; assumption.
Qed.

(** C2 (amended): when some contact scores at least 50, [top_matches]
    returns between one and three rows: the first three of the ranking
    (score descending, name ascending) of the contacts that reach the
    threshold of the active tier, the tier chosen by the integer part
    [m] of the maximum score.  The cap of 3 is applied by the core
    itself. *)
Theorem top_matches_first_three (g : str) (contacts_df : list row)
    (scores : list pynum) :
  g <> [] ->
  score_column g contacts_df = Ok scores ->
  forallb (fun s => finite (to_float s)) scores = true ->
  (exists r, In r (combine contacts_df scores) /\ score_ge 50 r = true) ->
  exists rows m,
    top_matches g contacts_df = Ok rows
    /\ best_of g contacts_df m
    /\ (1 <= length rows <= 3)%nat
    /\ first_three m (combine contacts_df scores) (map unreason rows).
Proof.
  intros Hg Hs Hf Hex.
  destruct (top_matches_run g contacts_df scores Hg Hs Hf Hex)
    as (rows & m & Ht & Hm & Hu & Hne).
  assert (H3 : first_three m (combine contacts_df scores) (map unreason rows)).
  { rewrite Hu, tiered_active; unfold first_three.
    destruct (shortlist_spec (active_threshold m (combine contacts_df scores))
                (combine contacts_df scores)) as (all & H).
    exists all; tauto. }
  exists rows, m; split; [exact Ht|]; split; [|split; [|exact H3]].
  - apply (best_of_max g contacts_df scores m Hs Hm).
  - split.
    + destruct rows; [congruence | simpl; lia].
    + destruct H3 as (all & _ & _ & E).
      rewrite <- (length_map unreason), E; apply firstn_le_length.
Qed.

(** X14: the rows the cap leaves out never outrank the rows returned.
    With [m] the integer part of the maximum score, the contacts that
    reach the threshold of the active tier are the returned rows
    together with the rows left out, and every returned row comes before
    every row left out in the order of the sort (higher score, then
    smaller name). *)
Theorem top_matches_best_first (g : str) (contacts_df : list row)
    (rows : list candidate) :
  g <> [] ->
  top_matches g contacts_df = Ok rows ->
  exists scores m rest,
    score_column g contacts_df = Ok scores
    /\ best_of g contacts_df m
    /\ Permutation (map unreason rows ++ rest)
         (filter (score_ge (active_threshold m (combine contacts_df scores)))
            (combine contacts_df scores))
    /\ (forall a b, In a (map unreason rows) -> In b rest -> before a b = true).
Proof.
  intros Hg H.
  destruct (top_matches_inv g contacts_df rows Hg H)
    as (scores & m & Hs & Hm & _ & Hu).
  set (df := combine contacts_df scores) in *.
  set (th := active_threshold m df).
  set (all := sort_values (filter (score_ge th) df)).
  assert (Hnn : Forall not_nan all).
  { apply (Permutation_Forall (Permutation_sym (sort_values_perm _))).
    eapply Forall_impl; [|apply filter_score_ge].
    intros r; apply score_ge_not_nan. }
  exists scores, m, (skipn 3 all); split; [exact Hs|]; split.
  { apply (best_of_max g contacts_df scores m Hs Hm). }
  rewrite Hu, tiered_active; fold th; unfold shortlist; fold all; split.
  - rewrite firstn_skipn; apply sort_values_perm.
  - apply ranked_split; [exact Hnn|].
    apply sort_values_ranked.
    eapply Forall_impl; [|apply filter_score_ge].
    intros r; apply score_ge_not_nan.
Qed.

(** X15: the reason column.  Every row [top_matches] returns carries the
    reason [reason_for] gives for the row's own normalized name and the
    integer part of its own score; and a row whose score reaches the
    auto-select threshold 93 never has an empty reason. *)
Theorem top_matches_reasons (g : str) (contacts_df : list row)
    (rows : list candidate) :
  top_matches g contacts_df = Ok rows ->
  Forall
    (fun r =>
       exists sc,
         py_int (score r) = Ok sc
         /\ reason r = reason_for g (norm_name (contact r)) sc
         /\ (93 <= sc -> nonempty (reason r) = true))
    rows.
Proof.
  intros H; destruct g as [|c0 g0]; [injection H as <-; constructor|].
  destruct (top_matches_inv (c0 :: g0) contacts_df rows ltac:(discriminate) H)
    as (scores & m & _ & _ & Hm & _).
  apply mapM_Forall2 in Hm; clear H.
  induction Hm as [|r c rs cs Hr _ IH]; [constructor|].
  constructor; [|exact IH].
  unfold with_reason in Hr.
  destruct (py_int (snd r)) as [sc|] eqn:Esc; simpl in Hr; [|discriminate].
  injection Hr as <-; simpl.
  exists sc; repeat split; [exact Esc|].
  intros Hsc; unfold reason_for.
  destruct (filter _ (_tokens (c0 :: g0))); [|reflexivity].
  unfold AUTO_SELECT_TH; destruct (Z.leb_spec 93 sc); [reflexivity | lia].
Qed.

(** X16: with a non-empty guest name and a contact table without rows,
    [top_matches] raises [ValueError]: the maximum of the empty score
    column is [nan]. *)
Theorem top_matches_no_contacts (g : str) :
  g <> [] -> top_matches g [] = Raise ValueError.
Proof.
  intros Hg; apply nonempty_true in Hg.
  unfold top_matches; rewrite Hg; reflexivity.
Qed.
End Selected.

(** ** The phone column and the automatic choice *)

Lemma first_index_spec (p : str -> bool) (l : list str) (i0 : nat) :
  match first_index p l i0 with
  | Some i =>
      (i0 <= i)%nat
      /\ (exists h, nth_error l (i - i0) = Some h /\ p h = true)
      /\ (forall j h, (j < i - i0)%nat -> nth_error l j = Some h -> p h = false)
  | None => forall h, In h l -> p h = false
  end.
Proof.
  revert i0; induction l as [|x l IH]; intros i0; simpl; [intros ? []|].
  destruct (p x) eqn:E.
  - replace (i0 - i0)%nat with 0%nat by lia.
    repeat split; [lia | exists x; auto | intros j h Hj; lia].
  - specialize (IH (S i0)); destruct (first_index p l (S i0)) as [i|].
    + destruct IH as (Hle & (h & Hn & Hp) & Hbefore).
      replace (i - i0)%nat with (S (i - S i0)) by lia.
      repeat split; [lia | exists h; auto|].
      intros [|j] h' Hj Hn'; simpl in Hn'; [congruence|].
      apply (Hbefore j h'); [lia | exact Hn'].
    + intros h [<- | Hin]; [exact E | apply IH, Hin].
Qed.

(** X17: [_find_phone_col] returns the position of the first header cell
    that names a phone column (no cell before it does), and the second
    column, index 1, when no cell does; also when the header has fewer
    than two cells. *)
Theorem find_phone_col_first (U : Unicode) (header : list str) :
  let i := _find_phone_col header in
  ((exists h, In h header /\ phone_header h = true) ->
   (exists h, nth_error header i = Some h /\ phone_header h = true)
   /\ (forall j h, (j < i)%nat -> nth_error header j = Some h ->
                   phone_header h = false))
  /\ ((forall h, In h header -> phone_header h = false) -> i = 1%nat).
Proof.
  intros i; subst i; unfold _find_phone_col.
  pose proof (first_index_spec phone_header header 0) as H.
  destruct (first_index phone_header header 0) as [i|].
  - destruct H as (_ & Hh & Hb); rewrite Nat.sub_0_r in *; split.
    + intros _; split; [exact Hh | exact Hb].
    + intros Hno; destruct Hh as (h & Hn & Hp).
      apply nth_error_In in Hn; rewrite (Hno h Hn) in Hp; discriminate.
  - split; [|reflexivity].
    intros (h & Hin & Hp); rewrite (H h Hin) in Hp; discriminate.
Qed.

Lemma find_phone_col_example :
  _find_phone_col (U := unicode_excerpt) [py "Name"; py "Side"; py " Phone "] = 2%nat
  /\ _find_phone_col (U := unicode_excerpt) [py "Name"] = 1%nat.
Proof. split; reflexivity. Qed.

Lemma startswith_app (p s : str) : startswith p (p ++ s) = true.
Proof. induction p as [|x p IH]; simpl; [reflexivity | rewrite N.eqb_refl; exact IH]. Qed.

Lemma is_infix_here (p s : str) : startswith p s = true -> is_infix p s = true.
Proof. intros H; destruct s; simpl; rewrite H; reflexivity. Qed.

Lemma is_infix_app (p a b : str) : is_infix p (a ++ p ++ b) = true.
Proof.
  induction a as [|x a IH].
  - change ([] ++ p ++ b) with (p ++ b); apply is_infix_here, startswith_app.
  - cbn [app is_infix]; rewrite IH; apply orb_true_r.
Qed.

Section AutoSelect.
Context {D : Digits}.

(** X18: the automatic choice.  With the options [create_radio_options]
    builds, [get_auto_select_index] selects option 1, the text of the
    first candidate, when that candidate's score is at least 93, and
    option 0 ("no match") otherwise or when there is no candidate.  The
    candidate's name must not begin with one of the three signs of the
    fixed options, unless its score is 100. *)
Theorem auto_select_first (best : scored) (others : list scored) (options : list str) :
  py_int (snd best) = Ok 100 \/ marked (full_name (fst best)) = false ->
  create_radio_options (best :: others) = Ok options ->
  get_auto_select_index (best :: others) options
  = (if (float_of_Z 93 <=? to_float (snd best))%float then 1%nat else 0%nat)
  /\ get_auto_select_index [] options = 0%nat.
Proof.
  intros Hs H; split; [|reflexivity].
  unfold create_radio_options in H; cbn [mapM] in H.
  unfold option_text at 1 in H; cbv zeta in H.
  destruct (py_int (snd best)) as [sc|] eqn:Esc; simpl in H; [|discriminate].
  destruct (mapM option_text others) as [texts|]; simpl in H; [|discriminate].
  injection H as <-.
  unfold get_auto_select_index, AUTO_SELECT_TH.
  destruct (float_of_Z 93 <=? to_float (snd best))%float; [|reflexivity].
  cbn [first_index app].
  change (marked NO_MATCH) with true; rewrite andb_false_r.
  destruct (Z.eqb_spec sc 100) as [-> | Hsc].
  - match goal with
    | |- context [is_infix ?n ?t] =>
        assert (Hi : is_infix n t = true)
          by exact (is_infix_app n [TARGET; SPACE] _)
    end.
    rewrite Hi; reflexivity.
  - destruct Hs as [Hs | Hs]; [congruence|].
    match goal with
    | |- context [is_infix ?n ?t] =>
        assert (Hi : is_infix n t = true) by exact (is_infix_app n [] _);
        assert (Hm : marked t = false)
          by (destruct n; [reflexivity | exact Hs])
    end.
    rewrite Hi, Hm; reflexivity.
Qed.
End AutoSelect.

(** ** Instances of the properties on concrete inputs *)

Lemma digits_excerpt_on_ascii : digits_on_ascii digits_excerpt.
Proof. intros c _; split; reflexivity. Qed.

Lemma format_phone_idempotent_witness :
  format_phone (D := digits_excerpt)
    (format_phone (D := digits_excerpt) (py "+972 (50) 123-4567"))
  = format_phone (D := digits_excerpt) (py "+972 (50) 123-4567").
Proof.
  apply (format_phone_idempotent (D := digits_excerpt) digits_excerpt_on_ascii).
Defined.

Lemma format_phone_shape_witness :
  let r := format_phone (D := digits_excerpt) (py "+972 (50) 123-4567") in
  startswith (py "972") r = false
  /\ ((length r = 11%nat
       /\ nth 3 r ZERO = HYPHEN
       /\ forallb ascii_digit (firstn 3 r ++ skipn 4 r) = true)
      \/ (length r <> 10%nat /\ forallb ascii_digit r = true)).
Proof.
  apply (format_phone_shape (D := digits_excerpt) digits_excerpt_on_ascii).
Defined.

Lemma format_phone_international_witness :
  format_phone (D := digits_excerpt) (py "+972-50-1234567")
  = format_phone (D := digits_excerpt) (py "050 1234567").
Proof.
  apply (format_phone_international (D := digits_excerpt)
           (py "+972-50-1234567") (py "050 1234567") (py "501234567"));
    reflexivity.
Defined.

Lemma accepted_phone_formats_witness :
  length (py "0501234567") = 10%nat
  /\ format_phone (D := digits_excerpt) (py "050-123 4567")
     = firstn 3 (py "0501234567") ++ [HYPHEN] ++ skipn 3 (py "0501234567")
  /\ only_digits (D := digits_excerpt)
       (Some (format_phone (D := digits_excerpt) (py "050-123 4567")))
     = py "0501234567".
Proof.
  apply (accepted_phone_formats (D := digits_excerpt) digits_excerpt_on_ascii).
  - repeat constructor.
  - reflexivity.
Defined.

Lemma format_phone_digits_witness :
  only_digits (D := digits_excerpt)
    (Some (format_phone (D := digits_excerpt) (py "+972-50-1234567")))
  = normalize_phone (D := digits_excerpt) (py "+972-50-1234567").
Proof.
  apply (format_phone_digits (D := digits_excerpt) digits_excerpt_on_ascii).
  repeat constructor.
Defined.

Lemma validated_phone_witness :
  let n := normalize_phone (D := digits_excerpt) (py "+972-50-1234567") in
  length n = 10%nat
  /\ startswith (py "05") n = true
  /\ normalize_phone (D := digits_excerpt) n = n
  /\ normalize_phone_basic (D := digits_excerpt) (Some n) = Some n.
Proof.
  apply (validated_phone (D := digits_excerpt) digits_excerpt_on_ascii).
  reflexivity.
Defined.

Lemma radio_options_round_trip_witness :
  length shown_options = (length shown_candidates + 3)%nat
  /\ map (extract_phone_from_choice) shown_options
     = [[]] ++ map (fun c => format_phone (D := digits_excerpt) (phone (fst c)))
                 shown_candidates ++ [[]; []].
Proof.
  apply (radio_options_round_trip (D := digits_excerpt) digits_excerpt_on_ascii).
  - constructor; [split; [repeat constructor | left; reflexivity]|].
    constructor; [split; [repeat constructor | right; reflexivity]|].
    constructor.
  - reflexivity.
Defined.

Lemma auto_select_first_witness :
  get_auto_select_index shown_candidates shown_options
  = (if (float_of_Z 93 <=? to_float (PyInt 100))%float then 1%nat else 0%nat)
  /\ get_auto_select_index [] shown_options = 0%nat.
Proof.
  apply (auto_select_first (D := digits_excerpt)
           (row_of "Dan | Cohen" "dan cohen", PyInt 100)
           [ (row_of "Yossi Levy" "yossi levy", PyFloat 66.5) ]).
  - left; reflexivity.
  - reflexivity.
Defined.

(** The failing input of the tiered policy: the only contact scores 22,
    below every threshold; and the fallback tier at work for two
    contacts scoring 22 and 65. *)
Lemma top_matches_tiers_witness :
  top_matches (F := rapidfuzz_model) (py "yossi cohen")
    [row_of "Dan Michael Cohen Levy" "dan michael cohen levy"]
  = Raise ValueError
  /\ exists rows m,
       top_matches (F := rapidfuzz_model) (py "yossi cohen") two_contacts = Ok rows
       /\ best_of (F := rapidfuzz_model) (py "yossi cohen") two_contacts m
       /\ tier_policy (combine two_contacts [PyInt 22; PyInt 65]) m
            (map unreason rows).
Proof.
  split.
  - destruct (top_matches_tiers (F := rapidfuzz_model) (py "yossi cohen")
                [row_of "Dan Michael Cohen Levy" "dan michael cohen levy"]
                [PyInt 22]) as [_ H].
    + discriminate.
    + vm_compute; reflexivity.
    + vm_compute; reflexivity.
    + apply H; intros r [<- | []]; vm_compute; reflexivity.
  - destruct (top_matches_tiers (F := rapidfuzz_model) (py "yossi cohen")
                two_contacts [PyInt 22; PyInt 65]) as [H _].
    + discriminate.
    + vm_compute; reflexivity.
    + vm_compute; reflexivity.
    + apply H.
      exists (row_of "Yossi Levy" "yossi levy", PyInt 65); split.
      * right; left; reflexivity.
      * vm_compute; reflexivity.
Defined.

Lemma top_matches_first_three_witness :
  exists rows m,
    top_matches (F := rapidfuzz_model) (py "dan cohen") four_contacts = Ok rows
    /\ best_of (F := rapidfuzz_model) (py "dan cohen") four_contacts m
    /\ (1 <= length rows <= 3)%nat
    /\ first_three m
         (combine four_contacts [PyInt 100; PyInt 100; PyInt 100; PyInt 100])
         (map unreason rows).
Proof.
  apply (top_matches_first_three (F := rapidfuzz_model)).
  - discriminate.
  - vm_compute; reflexivity.
  - vm_compute; reflexivity.
  - exists (row_of "Dan Cohen" "dan cohen", PyInt 100); split.
    + left; reflexivity.
    + vm_compute; reflexivity.
Defined.

Lemma top_matches_best_first_witness :
  exists scores m rest,
    score_column (F := rapidfuzz_model) (py "dan cohen") four_contacts = Ok scores
    /\ best_of (F := rapidfuzz_model) (py "dan cohen") four_contacts m
    /\ Permutation (map unreason four_result ++ rest)
         (filter (score_ge (active_threshold m (combine four_contacts scores)))
            (combine four_contacts scores))
    /\ (forall a b, In a (map unreason four_result) -> In b rest ->
                    before a b = true).
Proof.
  apply (top_matches_best_first (F := rapidfuzz_model)).
  - discriminate.
  - vm_compute; reflexivity.
Defined.

Lemma top_matches_reasons_witness :
  Forall
    (fun r =>
       exists sc,
         py_int (score r) = Ok sc
         /\ reason r = reason_for (py "dan cohen") (norm_name (contact r)) sc
         /\ (93 <= sc -> nonempty (reason r) = true))
    four_result.
Proof.
  apply (top_matches_reasons (F := rapidfuzz_model) (py "dan cohen") four_contacts).
  vm_compute; reflexivity.
Defined.

Lemma top_matches_no_contacts_witness :
  top_matches (F := rapidfuzz_model) (py "dan cohen") [] = Raise ValueError.
Proof.
  apply (top_matches_no_contacts (F := rapidfuzz_model)); discriminate.
Defined.

(** ** Normalizer and scorer: two more facts *)

(** X19: for ASCII text the result of [normalize] is clean: no uppercase
    ASCII letter, no character of the punctuation class, every blank a
    single space between two words, and nothing to trim. *)
Theorem normalize_ascii_clean (U : Unicode) (s : str) :
  lower_on_ascii U ->
  Forall is_ascii s ->
  let r := normalize (Some s) in
  Forall lowered r
  /\ Forall (fun c => punc c = false) r
  /\ single_spaced r
  /\ strip r = r.
Proof.
  intros HL Ha r; subst r.
  destruct s as [|c0 s0]; [simpl; repeat split; constructor|].
  remember (c0 :: s0) as s eqn:Es.
  assert (Hn : normalize (Some s)
               = strip (sub_runs isspace (sub_runs punc (map ascii_lower s)))).
  { assert (Hascii : Forall is_ascii
              (strip (sub_runs isspace (sub_runs punc (map ascii_lower s))))).
    { apply strip_Forall.
      apply sub_runs_Forall; [reflexivity|].
      apply sub_runs_Forall; [reflexivity|].
      apply Forall_map; revert Ha; apply Forall_impl, ascii_lower_ascii. }
    subst s; simpl; rewrite (HL _ Ha).
    apply unidecode_ascii_id, Hascii. }
  unfold str in *; rewrite Hn; repeat split.
  - apply strip_Forall, sub_runs_Forall; [reflexivity|].
    apply sub_runs_Forall; [reflexivity|].
    apply Forall_map, Forall_forall; intros c _; apply ascii_lower_lowered.
  - apply strip_Forall, sub_runs_Forall; [reflexivity|].
    apply sub_runs_clears; reflexivity.
  - apply rstrip_single_spaced, lstrip_single_spaced, sub_runs_single_spaced.
  - apply strip_idem.
Qed.

Lemma normalize_ascii_clean_witness :
  let r := normalize (U := unicode_excerpt) (Some (py " Dr. Dan  O'Neil-Cohen (Work) ")) in
  Forall lowered r
  /\ Forall (fun c => punc c = false) r
  /\ single_spaced r
  /\ strip r = r.
Proof.
  apply (normalize_ascii_clean unicode_excerpt).
  - exact lower_excerpt_ascii.
  - repeat constructor.
Defined.
